(** * notebooks/file_utils.py: saving and loading Qiskit objects as JSON

    A shallow embedding of [QiskitEncoder.default], [save_to_json],
    [load_properties] and [load_result], together with the parts of the
    Python runtime they run on: the value universe, [datetime.isoformat],
    the traversal of [json.dump], [json.load] and a file store. *)

From Stdlib Require Import ZArith NArith Ascii String Decimal DecimalN DecimalZ.
From Stdlib Require Import Floats.SpecFloat.
From stdpp Require Import gmap strings list.

Set Warnings "-register-all".

Local Open Scope N_scope.

(** ** Text *)

(** A Python [str] is a sequence of Unicode code points. *)
Definition pystr := list N.

(** The code points of an ASCII literal. *)
Definition lit (s : string) : pystr :=
  N_of_ascii <$> list_ascii_of_string s.

Fixpoint uint_chars (u : Decimal.uint) : pystr :=
  match u with
  | Nil => []
  | D0 u => 48 :: uint_chars u
  | D1 u => 49 :: uint_chars u
  | D2 u => 50 :: uint_chars u
  | D3 u => 51 :: uint_chars u
  | D4 u => 52 :: uint_chars u
  | D5 u => 53 :: uint_chars u
  | D6 u => 54 :: uint_chars u
  | D7 u => 55 :: uint_chars u
  | D8 u => 56 :: uint_chars u
  | D9 u => 57 :: uint_chars u
  end.

(** [str(n)] for a natural number. *)
Definition N_repr (n : N) : pystr := uint_chars (N.to_uint n).

(** [int.__repr__]. *)
Definition int_repr (z : Z) : pystr :=
  match Z.to_int z with
  | Pos u => uint_chars u
  | Neg u => 45 :: uint_chars u
  end.

(** ["%0<w>d" % n] for [n >= 0]. *)
Definition zfill (w : nat) (n : N) : pystr :=
  let s := N_repr n in replicate (w - length s) 48 ++ s.

(** ** Exceptions *)

Inductive exn : Type :=
  | TypeError_not_serializable (cls : pystr)
      (* "Object of type <cls> is not JSON serializable" *)
  | TypeError_keys (cls : pystr)
      (* "keys must be str, int, float, bool or None, not <cls>" *)
  | RecursionError
  | FileNotFoundError (path : string)
      (* reading a path at which there is no file *)
  | OSError (path : string)
      (* the error of [open] on a path it refuses: [PermissionError],
         [IsADirectoryError], [FileNotFoundError] for a missing
         directory *)
  | JSONDecodeError (msg : string) (pos : nat)
  | Raised (name : pystr).
      (* any exception raised inside code this module only calls *)

(** The outcome of a call: the exception raised, or the value returned. *)
Definition result (A : Type) : Type := exn + A.
Definition ok {A} (a : A) : result A := inr a.
Definition raise {A} (e : exn) : result A := inl e.

Definition bind {A B} (m : result A) (k : A → result B) : result B :=
  match m with
  | inl e => inl e
  | inr a => k a
  end.

Notation "'let*' x := m 'in' k" := (bind m (fun x => k))
  (at level 10, x name, m at level 100, k at level 200).

(** ** datetime *)

(** The fields of a builtin [datetime]; [utcoffset] is what
    [self.utcoffset()] does: it returns [None] for a naive timestamp,
    or the offset of the [tzinfo] in microseconds, or it raises what
    the [utcoffset] method of the [tzinfo] raises (the base class
    [tzinfo] raises [NotImplementedError]). *)
Record datetime : Type := mk_datetime {
  year : N; month : N; day : N;
  hour : N; minute : N; second : N; microsecond : N;
  utcoffset : result (option Z)
}.

(** [_format_time(hh, mm, ss, us, 'auto')]. *)
Definition format_time (hh mm ss us : N) : pystr :=
  zfill 2 hh ++ lit ":" ++ zfill 2 mm ++ lit ":" ++ zfill 2 ss
  ++ (if N.eqb us 0 then [] else lit "." ++ zfill 6 us).

(** [_format_offset(off)]. *)
Definition format_offset (off : option Z) : pystr :=
  match off with
  | None => []
  | Some o =>
      let sign := if Z.ltb o 0 then lit "-" else lit "+" in
      let a := Z.to_N (Z.abs o) in
      let hh := a / 3600000000 in
      let r := a mod 3600000000 in
      let mm := r / 60000000 in
      let ss := r mod 60000000 in
      sign ++ zfill 2 hh ++ lit ":" ++ zfill 2 mm
      ++ (if N.eqb ss 0 then []
          else lit ":" ++ zfill 2 (ss / 1000000)
               ++ (if N.eqb (ss mod 1000000) 0 then []
                   else lit "." ++ zfill 6 (ss mod 1000000)))
  end.

(** [datetime.isoformat(self)], with [sep='T'] and [timespec='auto']:
    the date and the time are formatted, then [self.utcoffset()] is
    called, and its exception, if any, is the outcome. *)
Definition isoformat (d : datetime) : result pystr :=
  let* off := utcoffset d in
  ok (zfill 4 (year d) ++ lit "-" ++ zfill 2 (month d) ++ lit "-"
      ++ zfill 2 (day d) ++ lit "T"
      ++ format_time (hour d) (minute d) (second d) (microsecond d)
      ++ format_offset off).

(** ** Python values *)

(** The values the encoder can meet. An object records what the four
    checks of [QiskitEncoder.default] observe of it: whether it has a
    [tolist] attribute and what calling it does, whether it is an
    instance of [complex] and what reading its [real] and its [imag]
    attribute does, whether it is an instance of [datetime] and what
    calling its [isoformat] method does, whether it has a [to_dict]
    attribute and what calling it does. Each of these is code of the
    class of the object (a subclass of [complex] or of [datetime] may
    override it): it returns some value or raises. A check that itself
    raises ([hasattr] lets through every exception of a property but
    [AttributeError]) ends [default] with that exception and is
    recorded as a conversion that raises it. The four
    observations are independent of each other. Values are finite
    trees: cyclic object graphs are not represented. *)
Inductive pyval : Type :=
  | PNone
  | PBool (b : bool)
  | PInt (n : Z)
  | PFloat (f : spec_float)
  | PStr (s : pystr)
  | PList (items : list pyval)
  | PTuple (items : list pyval)
  | PDict (items : list (pyval * pyval))
  | PObj (cls : pystr)
         (tolist : option call)
         (as_complex : option (call * call))
         (as_datetime : option call)
         (to_dict : option call)
with call : Type :=
  | Return (v : pyval)
  | Raise (e : exn).

(** [obj()] for a stored method. *)
Definition invoke (c : call) : result pyval :=
  match c with
  | Return v => ok v
  | Raise e => raise e
  end.

(** A builtin [complex]: its parts are floats and reading them cannot
    raise. *)
Definition PComplex (re im : spec_float) : pyval :=
  PObj (lit "complex") None (Some (Return (PFloat re), Return (PFloat im)))
       None None.

(** [d.isoformat()] for a builtin [datetime], as a method outcome. *)
Definition datetime_isoformat (d : datetime) : call :=
  match isoformat d with
  | inr text => Return (PStr text)
  | inl e => Raise e
  end.

(** A builtin [datetime.datetime]; an instance of a plain class without
    any of the four capabilities. *)
Definition PDatetime (d : datetime) : pyval :=
  PObj (lit "datetime") None None (Some (datetime_isoformat d)) None.
Definition PPlain (cls : pystr) : pyval :=
  PObj cls None None None None.

(** [o.__class__.__name__]. *)
Definition class_name (o : pyval) : pystr :=
  match o with
  | PNone => lit "NoneType"
  | PBool _ => lit "bool"
  | PInt _ => lit "int"
  | PFloat _ => lit "float"
  | PStr _ => lit "str"
  | PList _ => lit "list"
  | PTuple _ => lit "tuple"
  | PDict _ => lit "dict"
  | PObj cls _ _ _ _ => cls
  end.

(** [hasattr(obj, 'tolist')], [isinstance(obj, complex)],
    [isinstance(obj, datetime)], [hasattr(obj, 'to_dict')]. *)
Definition has_tolist (o : pyval) : bool :=
  match o with PObj _ (Some _) _ _ _ => true | _ => false end.
Definition is_complex (o : pyval) : bool :=
  match o with PObj _ _ (Some _) _ _ => true | _ => false end.
Definition is_datetime (o : pyval) : bool :=
  match o with PObj _ _ _ (Some _) _ => true | _ => false end.
Definition has_to_dict (o : pyval) : bool :=
  match o with PObj _ _ _ _ (Some _) => true | _ => false end.

(** [obj.tolist()], [[obj.real, obj.imag]], [obj.isoformat()],
    [obj.to_dict()]; each is only reached after its check succeeded. *)
Definition call_tolist (o : pyval) : result pyval :=
  match o with
  | PObj _ (Some c) _ _ _ => invoke c
  | _ => raise (Raised (lit "AttributeError"))
  end.
Definition real_imag (o : pyval) : result pyval :=
  match o with
  | PObj _ _ (Some (real, imag)) _ _ =>
      let* re := invoke real in
      let* im := invoke imag in
      ok (PList [re; im])
  | _ => raise (Raised (lit "AttributeError"))
  end.
Definition call_isoformat (o : pyval) : result pyval :=
  match o with
  | PObj _ _ _ (Some c) _ => invoke c
  | _ => raise (Raised (lit "AttributeError"))
  end.
Definition call_to_dict (o : pyval) : result pyval :=
  match o with
  | PObj _ _ _ _ (Some c) => invoke c
  | _ => raise (Raised (lit "AttributeError"))
  end.

(** ** QiskitEncoder *)

(** [json.JSONEncoder.default(self, o)]: always raises. *)
Definition JSONEncoder_default (o : pyval) : result pyval :=
  raise (TypeError_not_serializable (class_name o)).

(** [QiskitEncoder.default(self, obj)]. *)
Definition default (obj : pyval) : result pyval :=
  if has_tolist obj then call_tolist obj
  else if is_complex obj then real_imag obj
  else if is_datetime obj then call_isoformat obj
  else if has_to_dict obj then call_to_dict obj
  else JSONEncoder_default obj.

(** ** The interpreter *)

(** What the model takes from the Python runtime without defining it:
    the number of nested calls it allows before [RecursionError],
    [float.__repr__] on finite floats and [float(text)]. *)
Class Interpreter : Type := {
  recursion_limit : nat;
  float_repr : spec_float → pystr;
  parse_float : pystr → spec_float
}.

(** ** json.encoder *)

Definition hex_digit (d : N) : N :=
  if d <? 10 then 48 + d else 87 + d.

(** ['\\u{0:04x}'.format(n)]. *)
Definition u_escape (n : N) : pystr :=
  [92; 117; hex_digit (n / 4096 mod 16); hex_digit (n / 256 mod 16);
   hex_digit (n / 16 mod 16); hex_digit (n mod 16)].

(** [ESCAPE_DCT]: backslash, double quote, and the control characters
    with a short escape. *)
Definition ESCAPE_DCT (c : N) : option pystr :=
  if c =? 92 then Some [92; 92]
  else if c =? 34 then Some [92; 34]
  else if c =? 8 then Some [92; 98]
  else if c =? 12 then Some [92; 102]
  else if c =? 10 then Some [92; 110]
  else if c =? 13 then Some [92; 114]
  else if c =? 9 then Some [92; 116]
  else None.

(** [ESCAPE_ASCII] matches a backslash, a double quote, or anything
    outside space..tilde. *)
Definition ESCAPE_ASCII (c : N) : bool :=
  (c =? 92) || (c =? 34) || negb ((32 <=? c) && (c <=? 126)).

(** The [replace] callback of [py_encode_basestring_ascii]. *)
Definition replace (c : N) : pystr :=
  match ESCAPE_DCT c with
  | Some r => r
  | None =>
      if c <? 65536 then u_escape c
      else
        let n := c - 65536 in
        let s1 := N.lor 55296 (N.land (N.shiftr n 10) 1023) in
        let s2 := N.lor 56320 (N.land n 1023) in
        u_escape s1 ++ u_escape s2
  end.

(** [py_encode_basestring_ascii(s)]. *)
Definition encode_basestring_ascii (s : pystr) : pystr :=
  [34] ++ concat ((λ c, if ESCAPE_ASCII c then replace c else [c]) <$> s)
  ++ [34].

(** [floatstr(o)] with [allow_nan=True]. *)
Definition floatstr `{Interpreter} (o : spec_float) : pystr :=
  match o with
  | S754_nan => lit "NaN"
  | S754_infinity false => lit "Infinity"
  | S754_infinity true => lit "-Infinity"
  | _ => float_repr o
  end.

(** What a generator has done when it stops: the text it yielded, and
    the exception that stopped it, if any. *)
Definition emitted : Type := pystr * option exn.

Definition yield (s : pystr) : emitted := (s, None).
Definition throw (e : exn) : emitted := ([], Some e).

(** Run [a], then [b] unless [a] was stopped by an exception. *)
Definition andthen (a b : emitted) : emitted :=
  match a with
  | (s, None) => (s ++ b.1, b.2)
  | (s, Some e) => (s, Some e)
  end.

Infix ">>" := andthen (at level 61, left associativity).

(** The loop of [_iterencode_list]: before each value comes [buf], which
    is the opening bracket for the first value and the separator for
    the others. *)
Fixpoint iterencode_values (rec : pyval → emitted) (first : bool)
    (lst : list pyval) : emitted :=
  match lst with
  | [] => yield []
  | value :: rest =>
      yield (if first then lit "[" else lit ", ") >> rec value
      >> iterencode_values rec false rest
  end.

(** [_iterencode_list(lst, _current_indent_level)]. *)
Definition iterencode_list (rec : pyval → emitted) (lst : list pyval)
    : emitted :=
  match lst with
  | [] => yield (lit "[]")
  | _ => iterencode_values rec true lst >> yield (lit "]")
  end.

(** The key coercion of [_iterencode_dict], with [skipkeys=False]. *)
Definition key_text `{Interpreter} (key : pyval) : result pystr :=
  match key with
  | PStr s => ok s
  | PFloat f => ok (floatstr f)
  | PBool true => ok (lit "true")
  | PBool false => ok (lit "false")
  | PNone => ok (lit "null")
  | PInt n => ok (int_repr n)
  | _ => raise (TypeError_keys (class_name key))
  end.

(** The loop of [_iterencode_dict]. *)
Fixpoint iterencode_items `{Interpreter} (rec : pyval → emitted)
    (first : bool) (items : list (pyval * pyval)) : emitted :=
  match items with
  | [] => yield []
  | (key, value) :: rest =>
      match key_text key with
      | inl e => throw e
      | inr k =>
          yield (if first then [] else lit ", ")
          >> yield (encode_basestring_ascii k) >> yield (lit ": ")
          >> rec value >> iterencode_items rec false rest
      end
  end.

(** [_iterencode_dict(dct, _current_indent_level)]. *)
Definition iterencode_dict `{Interpreter} (rec : pyval → emitted)
    (dct : list (pyval * pyval)) : emitted :=
  match dct with
  | [] => yield (lit "{}")
  | _ => yield (lit "{") >> iterencode_items rec true dct >> yield (lit "}")
  end.

(** [_iterencode(o, _current_indent_level)] of [_make_iterencode], with
    [_default] bound to [QiskitEncoder.default]. [depth] is the number of
    nested calls still allowed. *)
Fixpoint iterencode `{Interpreter} (depth : nat) (o : pyval) : emitted :=
  match depth with
  | O => throw RecursionError
  | S depth =>
      match o with
      | PStr s => yield (encode_basestring_ascii s)
      | PNone => yield (lit "null")
      | PBool true => yield (lit "true")
      | PBool false => yield (lit "false")
      | PInt n => yield (int_repr n)
      | PFloat f => yield (floatstr f)
      | PList lst | PTuple lst => iterencode_list (iterencode depth) lst
      | PDict dct => iterencode_dict (iterencode depth) dct
      | _ =>
          match default o with
          | inl e => throw e
          | inr o' => iterencode depth o'
          end
      end
  end.

(** ** Files *)

(** The file store: the text of each existing file, and the paths that
    [open] refuses, for whatever reason (no permission, a directory, a
    missing parent directory). A file is known by one path: two
    spellings of a path, or links, that lead to the same file are not
    represented, and a path outside [denied] can be opened both for
    writing and for reading. *)
Record filesystem : Type := mk_fs {
  files : gmap string pystr;
  denied : gset string
}.

(** [open(filename, 'w')]: creates the file or truncates it, or raises
    the error of the refusal. *)
Definition open_w (filename : string) (fs : filesystem)
    : result filesystem :=
  if decide (filename ∈ denied fs) then raise (OSError filename)
  else ok (mk_fs (<[filename := []]> (files fs)) (denied fs)).

(** [file.write(text)] followed by the flush when the file is closed. *)
Definition write (filename : string) (text : pystr) (fs : filesystem)
    : filesystem :=
  mk_fs (alter (λ old, old ++ text) filename (files fs)) (denied fs).

(** [open(filename, 'r')] and [file.read()]: the error of the refusal,
    [FileNotFoundError] where there is no file, or the text. *)
Definition open_r (filename : string) (fs : filesystem) : result pystr :=
  if decide (filename ∈ denied fs) then raise (OSError filename)
  else match files fs !! filename with
       | Some text => ok text
       | None => raise (FileNotFoundError filename)
       end.

(** [json.dump(obj, fp, cls=QiskitEncoder)]: every chunk the encoder
    yields is written; an exception leaves what was written so far. *)
Definition json_dump `{Interpreter} (obj : pyval) (filename : string)
    (fs : filesystem) : filesystem * result unit :=
  let '(text, stopped) := iterencode recursion_limit obj in
  (write filename text fs,
   match stopped with Some e => raise e | None => ok tt end).

(** [save_to_json(obj, filename)]. *)
Definition save_to_json `{Interpreter} (obj : pyval) (filename : string)
    (fs : filesystem) : filesystem * result unit :=
  match open_w filename fs with
  | inl e => (fs, raise e)
  | inr fs' => json_dump obj filename fs'
  end.

(** ** json.decoder and json.scanner *)

(** What a scanning function did at a position: it returned a value and
    the position after it, raised [StopIteration] (no value starts
    here), raised [JSONDecodeError], or exceeded the recursion limit.
    A position is given by the text that remains from it on. *)
Inductive scan (A : Type) : Type :=
  | Scanned (a : A) (rest : pystr)
  | Stop (rest : pystr)
  | Fail (msg : string) (rest : pystr)
  | TooDeep.
Arguments Scanned {A} a rest.
Arguments Stop {A} rest.
Arguments Fail {A} msg rest.
Arguments TooDeep {A}.

(** [WHITESPACE]: space, tab, newline, carriage return. *)
Definition is_ws (c : N) : bool :=
  (c =? 32) || (c =? 9) || (c =? 10) || (c =? 13).

Fixpoint skip_ws (s : pystr) : pystr :=
  match s with
  | c :: s' => if is_ws c then skip_ws s' else s
  | [] => []
  end.

(** [s[idx:idx+len(p)] == p], with the text after the match. *)
Fixpoint strip_prefix (p s : pystr) : option pystr :=
  match p, s with
  | [], _ => Some s
  | a :: p', b :: s' => if a =? b then strip_prefix p' s' else None
  | _ :: _, [] => None
  end.

Definition is_digit (c : N) : bool := (48 <=? c) && (c <=? 57).

(** The longest run of digits at the head of [s], and what follows. *)
Fixpoint span_digits (s : pystr) : pystr * pystr :=
  match s with
  | c :: s' =>
      if is_digit c then let '(ds, r) := span_digits s' in (c :: ds, r)
      else ([], s)
  | [] => ([], [])
  end.

Definition digit_cons (c : N) (u : Decimal.uint) : Decimal.uint :=
  if c =? 48 then D0 u else if c =? 49 then D1 u
  else if c =? 50 then D2 u else if c =? 51 then D3 u
  else if c =? 52 then D4 u else if c =? 53 then D5 u
  else if c =? 54 then D6 u else if c =? 55 then D7 u
  else if c =? 56 then D8 u else D9 u.

Definition chars_uint (s : pystr) : Decimal.uint :=
  foldr digit_cons Nil s.

(** [int(text)] on the integer part of a JSON number. *)
Definition parse_int (text : pystr) : Z :=
  match text with
  | 45 :: ds => Z.of_int (Neg (chars_uint ds))
  | ds => Z.of_int (Pos (chars_uint ds))
  end.

(** [NUMBER_RE.match]: the integer part (an optional minus, then 0 or
    a nonzero digit followed by digits), the fraction (a dot and at least
    one digit) and the exponent (e or E, an optional sign, at least one
    digit), and the text after the match. *)
Definition match_integer (s : pystr) : option (pystr * pystr) :=
  let '(sign, s1) :=
    match s with
    | 45 :: s' => ([45], s')
    | _ => ([], s)
    end in
  match s1 with
  | c :: s2 =>
      if c =? 48 then Some (sign ++ [48], s2)
      else if is_digit c then
        let '(ds, r) := span_digits s2 in Some (sign ++ c :: ds, r)
      else None
  | [] => None
  end.

Definition match_frac (s : pystr) : option pystr * pystr :=
  match s with
  | 46 :: s' =>
      match span_digits s' with
      | ([], _) => (None, s)
      | (ds, r) => (Some (46 :: ds), r)
      end
  | _ => (None, s)
  end.

Definition match_exp (s : pystr) : option pystr * pystr :=
  match s with
  | c :: s' =>
      if (c =? 101) || (c =? 69) then
        let '(sign, s1) :=
          match s' with
          | d :: s'' =>
              if (d =? 43) || (d =? 45) then ([d], s'') else ([], s')
          | [] => ([], s')
          end in
        match span_digits s1 with
        | ([], _) => (None, s)
        | (ds, r) => (Some (c :: sign ++ ds), r)
        end
      else (None, s)
  | [] => (None, s)
  end.

Definition match_number (s : pystr)
    : option (pystr * option pystr * option pystr * pystr) :=
  match match_integer s with
  | None => None
  | Some (integer, s1) =>
      let '(frac, s2) := match_frac s1 in
      let '(exp, s3) := match_exp s2 in
      Some (integer, frac, exp, s3)
  end.

(** [group or '']. *)
Definition or_empty (group : option pystr) : pystr :=
  match group with
  | Some text => text
  | None => []
  end.

Definition hex_value (c : N) : option N :=
  if is_digit c then Some (c - 48)
  else if (97 <=? c) && (c <=? 102) then Some (c - 87)
  else if (65 <=? c) && (c <=? 70) then Some (c - 55)
  else None.

(** [_decode_uXXXX]: four hexadecimal digits. *)
Definition decode_uXXXX (s : pystr) : option (N * pystr) :=
  match s with
  | a :: b :: c :: d :: rest =>
      match hex_value a, hex_value b, hex_value c, hex_value d with
      | Some a, Some b, Some c, Some d =>
          Some (((a * 16 + b) * 16 + c) * 16 + d, rest)
      | _, _, _, _ => None
      end
  | _ => None
  end.

(** [BACKSLASH]: the one-letter escapes. *)
Definition BACKSLASH (c : N) : option N :=
  if c =? 34 then Some 34
  else if c =? 92 then Some 92
  else if c =? 47 then Some 47
  else if c =? 98 then Some 8
  else if c =? 102 then Some 12
  else if c =? 110 then Some 10
  else if c =? 114 then Some 13
  else if c =? 116 then Some 9
  else None.

(** A [\uXXXX] escape as [scanstring] reads it: four hexadecimal digits
    with at least one more character after them. *)
Definition decode_escape (s : pystr) : option (N * pystr) :=
  match decode_uXXXX s with
  | Some (uni, c :: rest) => Some (uni, c :: rest)
  | _ => None
  end.

(** The loop of [scanstring] with [strict=True], as the C implementation
    that [json] uses reports errors; [begin] is the text from the
    opening quote, [s] the text at the current position, [acc] holds the
    decoded characters in reverse. A high surrogate is joined with a
    following escape only when a character follows that escape. *)
Fixpoint scanstring_loop (fuel : nat) (begin s acc : pystr)
    : scan pystr :=
  match fuel with
  | O => TooDeep
  | S fuel =>
      match s with
      | [] => Fail "Unterminated string starting at" begin
      | c :: s1 =>
          if c =? 34 then Scanned (reverse acc) s1
          else if c =? 92 then
            match s1 with
            | [] => Fail "Unterminated string starting at" begin
            | esc :: s2 =>
                if esc =? 117 then
                  match decode_escape s2 with
                  | None => Fail "Invalid \uXXXX escape" s1
                  | Some (uni, s3) =>
                      if (55296 <=? uni) && (uni <=? 56319)
                         && (6 <? length s3)%nat then
                        match strip_prefix [92; 117] s3 with
                        | Some s4 =>
                            match decode_uXXXX s4 with
                            | None =>
                                Fail "Invalid \uXXXX escape" (117 :: s4)
                            | Some (uni2, s5) =>
                                if (56320 <=? uni2) && (uni2 <=? 57343) then
                                  scanstring_loop fuel begin s5
                                    (65536 + N.lor (N.shiftl (uni - 55296) 10)
                                                   (uni2 - 56320) :: acc)
                                else
                                  scanstring_loop fuel begin s3 (uni :: acc)
                            end
                        | None => scanstring_loop fuel begin s3 (uni :: acc)
                        end
                      else scanstring_loop fuel begin s3 (uni :: acc)
                  end
                else
                  match BACKSLASH esc with
                  | Some ch => scanstring_loop fuel begin s2 (ch :: acc)
                  | None => Fail "Invalid \escape" s
                  end
            end
          else if c <? 32 then Fail "Invalid control character at" s
          else scanstring_loop fuel begin s1 (c :: acc)
      end
  end.

(** [scanstring(s, end)], [end] just after the opening quote. *)
Definition scanstring (s : pystr) : scan pystr :=
  scanstring_loop (S (length s)) (34 :: s) s [].

(** [dict(pairs)] builds the mapping pair by pair: a key seen again
    keeps its place and takes the new value. *)
Fixpoint dict_set (k : pystr) (v : pyval) (d : list (pyval * pyval))
    : list (pyval * pyval) :=
  match d with
  | [] => [(PStr k, v)]
  | (PStr k', v') :: d' =>
      if decide (k = k') then (PStr k', v) :: d'
      else (PStr k', v') :: dict_set k v d'
  | kv :: d' => kv :: dict_set k v d'
  end.

Definition dict_of_pairs (pairs : list (pystr * pyval))
    : list (pyval * pyval) :=
  foldl (λ d kv, dict_set kv.1 kv.2 d) [] pairs.

(** The loop of [JSONArray] after the look-ahead for the empty array;
    [acc] holds the values in reverse. *)
Fixpoint JSONArray_loop (scan_once : pystr → scan pyval) (fuel : nat)
    (s : pystr) (acc : list pyval) : scan pyval :=
  match fuel with
  | O => TooDeep
  | S fuel =>
      match scan_once s with
      | Scanned value s1 =>
          match skip_ws s1 with
          | c :: s2 =>
              if c =? 93 then Scanned (PList (reverse (value :: acc))) s2
              else if c =? 44 then
                JSONArray_loop scan_once fuel (skip_ws s2) (value :: acc)
              else Fail "Expecting ',' delimiter" (c :: s2)
          | [] => Fail "Expecting ',' delimiter" []
          end
      | Stop r => Fail "Expecting value" r
      | Fail msg r => Fail msg r
      | TooDeep => TooDeep
      end
  end.

(** [JSONArray((s, end), scan_once)], [end] just after the bracket. *)
Definition JSONArray (scan_once : pystr → scan pyval) (s : pystr)
    : scan pyval :=
  match skip_ws s with
  | c :: s1 =>
      if c =? 93 then Scanned (PList []) s1
      else JSONArray_loop scan_once (S (length s)) (c :: s1) []
  | [] => JSONArray_loop scan_once (S (length s)) [] []
  end.

(** The loop of [JSONObject]; [s] starts at the opening quote of a key,
    [acc] holds the pairs in reverse. *)
Fixpoint JSONObject_loop (scan_once : pystr → scan pyval) (fuel : nat)
    (s : pystr) (acc : list (pystr * pyval)) : scan pyval :=
  match fuel with
  | O => TooDeep
  | S fuel =>
      match s with
      | 34 :: s0 =>
          match scanstring s0 with
          | Scanned key s1 =>
              match skip_ws s1 with
              | 58 :: s2 =>
                  match scan_once (skip_ws s2) with
                  | Scanned value s3 =>
                      match skip_ws s3 with
                      | c :: s4 =>
                          if c =? 125 then
                            Scanned
                              (PDict (dict_of_pairs
                                        (reverse ((key, value) :: acc)))) s4
                          else if c =? 44 then
                            JSONObject_loop scan_once fuel (skip_ws s4)
                              ((key, value) :: acc)
                          else Fail "Expecting ',' delimiter" (c :: s4)
                      | [] => Fail "Expecting ',' delimiter" []
                      end
                  | Stop r => Fail "Expecting value" r
                  | Fail msg r => Fail msg r
                  | TooDeep => TooDeep
                  end
              | r => Fail "Expecting ':' delimiter" r
              end
          | Stop r => Stop r
          | Fail msg r => Fail msg r
          | TooDeep => TooDeep
          end
      | _ =>
          Fail "Expecting property name enclosed in double quotes" s
      end
  end.

(** [JSONObject((s, end), ...)], [end] just after the brace. *)
Definition JSONObject (scan_once : pystr → scan pyval) (s : pystr)
    : scan pyval :=
  match skip_ws s with
  | c :: s1 =>
      if c =? 125 then Scanned (PDict []) s1
      else JSONObject_loop scan_once (S (length s)) (c :: s1) []
  | [] => JSONObject_loop scan_once (S (length s)) [] []
  end.

(** [_scan_once(string, idx)] of [py_make_scanner]. *)
Fixpoint scan_once `{Interpreter} (depth : nat) (s : pystr) : scan pyval :=
  match depth with
  | O => TooDeep
  | S depth =>
      match s with
      | [] => Stop s
      | nextchar :: s' =>
          if nextchar =? 34 then
            match scanstring s' with
            | Scanned str r => Scanned (PStr str) r
            | Stop r => Stop r
            | Fail msg r => Fail msg r
            | TooDeep => TooDeep
            end
          else if nextchar =? 123 then JSONObject (scan_once depth) s'
          else if nextchar =? 91 then JSONArray (scan_once depth) s'
          else
            match strip_prefix (lit "null") s, strip_prefix (lit "true") s,
                  strip_prefix (lit "false") s with
            | Some r, _, _ => Scanned PNone r
            | _, Some r, _ => Scanned (PBool true) r
            | _, _, Some r => Scanned (PBool false) r
            | None, None, None =>
                match match_number s with
                | Some (integer, None, None, r) =>
                    Scanned (PInt (parse_int integer)) r
                | Some (integer, frac, exp, r) =>
                    Scanned
                      (PFloat (parse_float
                                 (integer ++ or_empty frac
                                  ++ or_empty exp))) r
                | None =>
                    match strip_prefix (lit "NaN") s,
                          strip_prefix (lit "Infinity") s,
                          strip_prefix (lit "-Infinity") s with
                    | Some r, _, _ => Scanned (PFloat S754_nan) r
                    | _, Some r, _ => Scanned (PFloat (S754_infinity false)) r
                    | _, _, Some r => Scanned (PFloat (S754_infinity true)) r
                    | None, None, None => Stop s
                    end
                end
            end
      end
  end.

(** [json.loads(s)]: [JSONDecoder.decode] around [raw_decode]. *)
Definition json_loads `{Interpreter} (s : pystr) : result pyval :=
  let pos (r : pystr) := (length s - length r)%nat in
  match strip_prefix [65279] s with
  | Some _ =>
      raise (JSONDecodeError
               "Unexpected UTF-8 BOM (decode using utf-8-sig)" 0)
  | None =>
      match scan_once recursion_limit (skip_ws s) with
      | Scanned obj r =>
          match skip_ws r with
          | [] => ok obj
          | r' => raise (JSONDecodeError "Extra data" (pos r'))
          end
      | Stop r => raise (JSONDecodeError "Expecting value" (pos r))
      | Fail msg r => raise (JSONDecodeError msg (pos r))
      | TooDeep => raise RecursionError
      end
  end.

(** [with open(filename, 'r') as file: json.load(file)]. *)
Definition json_load `{Interpreter} (filename : string) (fs : filesystem)
    : result pyval :=
  let* text := open_r filename fs in json_loads text.

(** ** The Qiskit factories *)

(** The two classes whose [from_dict] constructors this module calls.
    Their code is not part of the module: each takes the parsed value
    and returns an object or raises. *)
Class Qiskit : Type := {
  Result : Type;
  Result_from_dict : pyval → result Result;
  BackendProperties : Type;
  BackendProperties_from_dict : pyval → result BackendProperties
}.

(** [[f(i) for i in tmp]]: left to right, stopped by the first
    exception. *)
Fixpoint comprehension {A B} (f : A → result B) (tmp : list A)
    : result (list B) :=
  match tmp with
  | [] => ok []
  | i :: rest =>
      let* x := f i in
      let* xs := comprehension f rest in
      ok (x :: xs)
  end.

(** [load_properties(filename)]. *)
Definition load_properties `{Interpreter} `{Qiskit} (filename : string)
    (fs : filesystem) : result BackendProperties :=
  let* tmp := json_load filename fs in
  BackendProperties_from_dict tmp.

(** What [load_result] returns: one [Result], or a list of them. *)
Inductive loaded `{Qiskit} : Type :=
  | Single (r : Result)
  | Many (rs : list Result).

(** [load_result(filename)]. *)
Definition load_result `{Interpreter} `{Qiskit} (filename : string)
    (fs : filesystem) : result loaded :=
  let* tmp := json_load filename fs in
  match tmp with
  | PList items =>
      let* rs := comprehension Result_from_dict items in
      ok (Many rs)
  | _ =>
      let* r := Result_from_dict tmp in
      ok (Single r)
  end.

(** ** The contract of the encoder, as the specification words it *)

(** The four checks in the order of the specification, each with the
    conversion it guards. *)
Definition priority_order
    : list ((pyval → bool) * (pyval → result pyval)) :=
  [ (has_tolist, call_tolist);
    (is_complex, real_imag);
    (is_datetime, call_isoformat);
    (has_to_dict, call_to_dict) ].

(** Some branch of the encoder applies to [v]. *)
Definition applies (v : pyval) : bool :=
  has_tolist v || is_complex v || is_datetime v || has_to_dict v.

(** The two outcomes the specification allows for the fallback: a branch
    applies and returns a structure, or no branch applies and the
    unsupported-type error is raised. *)
Definition two_outcomes (v : pyval) : Prop :=
  (applies v = true ∧ ∃ r, default v = ok r)
  ∨ (applies v = false
     ∧ default v = raise (TypeError_not_serializable (class_name v))).

(** The conversion of the branch that applies to [v] raised [e]: the
    [tolist()] call; without [tolist], reading [real] or, after [real]
    was read, [imag]; without these, the [isoformat()] call; without
    these, the [to_dict()] call. *)
Definition raised_by_conversion (v : pyval) (e : exn) : Prop :=
  match v with
  | PObj _ (Some m) _ _ _ => m = Raise e
  | PObj _ None (Some (real, imag)) _ _ =>
      real = Raise e ∨ (∃ re, real = Return re ∧ imag = Raise e)
  | PObj _ None None (Some m) _ => m = Raise e
  | PObj _ None None None (Some m) => m = Raise e
  | _ => False
  end.

(** What the specification says of a timestamp: the fallback converts
    it to a string. *)
Definition converted_to_string (v : pyval) : Prop :=
  ∃ text, default v = ok (PStr text).

(** ** Values used in the examples *)

(** The binary64 numbers 3.0 and 4.0. *)
Definition float_3 : spec_float := S754_finite false 6755399441055744 (-51).
Definition float_4 : spec_float := S754_finite false 4503599627370496 (-50).

(** [f == z] for a float and an integer: the comparison is exact. *)
Definition float_eqb_int (f : spec_float) (z : Z) : bool :=
  match f with
  | S754_zero _ => Z.eqb z 0
  | S754_finite s m e =>
      let v := if s then Z.neg m else Z.pos m in
      if Z.leb 0 e then Z.eqb (v * 2 ^ e) z
      else Z.eqb v (z * 2 ^ (- e))
  | _ => false
  end.

(** [3+4j] and [datetime(2024, 1, 1, 0, 0, 0)]. *)
Definition three_plus_four_j : pyval := PComplex float_3 float_4.
Definition new_year_2024 : datetime :=
  mk_datetime 2024 1 1 0 0 0 0 (ok None).

(** Midnight of 1 January 2024 with [tzinfo=tzinfo()]: the base class
    [tzinfo] does not implement [utcoffset]. *)
Definition new_year_2024_abstract_tz : datetime :=
  mk_datetime 2024 1 1 0 0 0 0 (raise (Raised (lit "NotImplementedError"))).

(** An object whose [tolist] method raises [ValueError]. *)
Definition broken_array : pyval :=
  PObj (lit "Broken") (Some (Raise (Raised (lit "ValueError"))))
       None None None.

(** An interpreter to run the examples with: it prints the two floats
    above as Python does. *)
Definition example_interpreter : Interpreter :=
  {| recursion_limit := 1000;
     float_repr f :=
       if float_eqb_int f 3 then lit "3.0"
       else if float_eqb_int f 4 then lit "4.0"
       else lit "0.0";
     parse_float text :=
       if decide (text = lit "3.0") then float_3
       else if decide (text = lit "4.0") then float_4
       else S754_zero false |}.

(** Factories to run the examples with: a result is rebuilt from any
    mapping and keeps it; anything else is rejected. *)
Definition from_mapping (v : pyval) : result (list (pyval * pyval)) :=
  match v with
  | PDict items => ok items
  | _ => raise (Raised (lit "AttributeError"))
  end.

Definition example_qiskit : Qiskit :=
  {| Result := list (pyval * pyval);
     Result_from_dict := from_mapping;
     BackendProperties := list (pyval * pyval);
     BackendProperties_from_dict := from_mapping |}.

(** Factories that reject everything. *)
Definition rejecting_qiskit : Qiskit :=
  {| Result := unit;
     Result_from_dict _ := raise (Raised (lit "KeyError"));
     BackendProperties := unit;
     BackendProperties_from_dict _ := raise (Raised (lit "KeyError")) |}.

(** A store holding one file. *)
Definition one_file (filename : string) (text : pystr) : filesystem :=
  mk_fs {[ filename := text ]} ∅.

(** The exceptions [json.load] raises by itself. *)
Definition parse_error (e : exn) : Prop :=
  match e with
  | JSONDecodeError _ _ | RecursionError => True
  | _ => False
  end.

(** Two results of a list file and of an object file. *)
Definition two_results_text : pystr :=
  [91; 123; 34; 97; 34; 58; 32; 49; 125; 44; 32; 123; 125; 93].
Definition one_result_text : pystr :=
  [123; 34; 97; 34; 58; 32; 49; 125].

(** ** What a truncated file looks like *)

(** A scanner for the bracket structure of a text: it tracks whether
    the position is inside a string literal (and after a backslash
    there) and how many brackets and braces are open. *)
Inductive lexmode : Type := Outside | InString | Escaped.

Definition lex_step (st : lexmode * nat) (c : N) : lexmode * nat :=
  match st with
  | (Outside, d) =>
      if c =? 34 then (InString, d)
      else if (c =? 91) || (c =? 123) then (Outside, S d)
      else if (c =? 93) || (c =? 125) then (Outside, Nat.pred d)
      else (Outside, d)
  | (InString, d) =>
      if c =? 92 then (Escaped, d)
      else if c =? 34 then (Outside, d)
      else (InString, d)
  | (Escaped, d) => (InString, d)
  end.

Definition lex (s : pystr) (st : lexmode * nat) : lexmode * nat :=
  foldl lex_step st s.

(** The text leaves a bracket or a brace open. *)
Definition unclosed (w : pystr) : Prop :=
  ∃ d, lex w (Outside, O) = (Outside, S d).

(** The characters of the text of a finite float: digits, signs, the
    point and the exponent mark. *)
Definition number_char (c : N) : bool :=
  is_digit c || (c =? 43) || (c =? 45) || (c =? 46) || (c =? 101).

Definition float_repr_numeric `{Interpreter} : Prop :=
  ∀ f, forallb number_char (float_repr f) = true.

(** The types [_iterencode_dict] accepts for a key. *)
Definition key_typed (key : pyval) : bool :=
  match key with
  | PStr _ | PFloat _ | PBool _ | PNone | PInt _ => true
  | _ => false
  end.

(** What a generator did to the bracket structure, from [d] open
    brackets: run to its end, it leaves [dok] open; stopped by an
    exception, it leaves at least [lo] open. *)
Definition emits (lo d dok : nat) (r : emitted) : Prop :=
  match r.2 with
  | None => lex r.1 (Outside, d) = (Outside, dok)
  | Some _ => ∃ d', lex r.1 (Outside, d) = (Outside, d') ∧ (lo ≤ d')%nat
  end.

(** The same for the encoding of one value: run to its end it closes
    what it opened; stopped, it has written nothing or leaves more open
    than it found. *)
Definition emits_value (d : nat) (r : emitted) : Prop :=
  match r.2 with
  | None => lex r.1 (Outside, d) = (Outside, d)
  | Some _ =>
      ∃ d', lex r.1 (Outside, d) = (Outside, d') ∧ (r.1 = [] ∨ (d < d')%nat)
  end.

(** The traversal of [obj] comes to a value that no branch of the
    encoder applies to. *)
Inductive unsupported_in : pyval → Prop :=
  | unsupported_here cls :
      unsupported_in (PObj cls None None None None)
  | unsupported_list items v :
      v ∈ items → unsupported_in v → unsupported_in (PList items)
  | unsupported_tuple items v :
      v ∈ items → unsupported_in v → unsupported_in (PTuple items)
  | unsupported_dict items k v :
      (k, v) ∈ items → unsupported_in v → unsupported_in (PDict items)
  | unsupported_converted cls tl cx dt td o' :
      default (PObj cls tl cx dt td) = ok o' →
      unsupported_in o' →
      unsupported_in (PObj cls tl cx dt td).

(** Within [n] nested calls, nothing but a value without an applicable
    branch stops the encoder on the value: every conversion it calls
    returns and every dictionary key has a key type. *)
Inductive otherwise_encodable : nat → pyval → Prop :=
  | oe_none n : otherwise_encodable (S n) PNone
  | oe_bool n b : otherwise_encodable (S n) (PBool b)
  | oe_int n z : otherwise_encodable (S n) (PInt z)
  | oe_float n f : otherwise_encodable (S n) (PFloat f)
  | oe_str n s : otherwise_encodable (S n) (PStr s)
  | oe_list n items :
      Forall (otherwise_encodable n) items →
      otherwise_encodable (S n) (PList items)
  | oe_tuple n items :
      Forall (otherwise_encodable n) items →
      otherwise_encodable (S n) (PTuple items)
  | oe_dict n items :
      Forall (λ kv, key_typed kv.1 = true
                    ∧ otherwise_encodable n kv.2) items →
      otherwise_encodable (S n) (PDict items)
  | oe_unsupported n cls :
      otherwise_encodable (S n) (PObj cls None None None None)
  | oe_converted n cls tl cx dt td o' :
      default (PObj cls tl cx dt td) = ok o' →
      otherwise_encodable n o' →
      otherwise_encodable (S n) (PObj cls tl cx dt td).

(** A list holding an integer and a set. *)
Definition one_and_a_set : pyval := PList [PInt 1; PPlain (lit "set")].

(** ** What the decoder consumes *)

(** Code points that are neither a double quote nor a bracket or brace:
    outside a string literal they leave the bracket structure alone. *)
Definition inert (c : N) : bool :=
  negb ((c =? 34) || (c =? 91) || (c =? 123) || (c =? 93) || (c =? 125)).

(** A text that leaves the scanner where it found it; one that ends the
    string literal it starts in; one that closes the bracket it starts
    in. *)
Definition balanced (t : pystr) : Prop :=
  ∀ d, lex t (Outside, d) = (Outside, d).
Definition closes_string (t : pystr) : Prop :=
  ∀ d, lex t (InString, d) = (Outside, d).
Definition closes_bracket (t : pystr) : Prop :=
  ∀ d, lex t (Outside, S d) = (Outside, d).

(** A scanning function that returns at [s] has consumed a text with
    property [P]. *)
Definition scans {A} (P : pystr → Prop) (s : pystr) (r : scan A) : Prop :=
  match r with
  | Scanned _ rest => ∃ t, s = t ++ rest ∧ P t
  | _ => True
  end.

(** A text that stays inside the string literal it starts in. *)
Definition stays_in_string (t : pystr) : Prop :=
  ∀ d, lex t (InString, d) = (InString, d).

(** A complete value: not empty, and balanced. *)
Definition complete (t : pystr) : Prop := t ≠ [] ∧ balanced t.

(** ** What a saved value loads as *)

(** A Unicode scalar value: a code point that is not a surrogate. *)
Definition scalar (c : N) : bool :=
  (c <? 55296) || ((57343 <? c) && (c <? 1114112)).

#[global] Instance spec_float_eq_dec : EqDecision spec_float.
Proof. solve_decision. Defined.

(** The text written for the float is a JSON number with a fraction or
    an exponent, and [float] reads it back as the same float. The three
    non-finite floats are written as names the decoder knows. *)
Definition float_round_trips `{Interpreter} (f : spec_float) : bool :=
  match f with
  | S754_nan | S754_infinity _ => true
  | _ =>
      match match_number (float_repr f) with
      | Some (_, None, None, _) => false
      | Some (_, _, _, []) => bool_decide (parse_float (float_repr f) = f)
      | _ => false
      end
  end.

(** The string a key is written as holds scalar values only. *)
Definition key_faithful `{Interpreter} (key : pyval) : bool :=
  match key_text key with
  | inr k => forallb scalar k
  | inl _ => true
  end.

(** Every string the encoder meets on [o] within [depth] nested calls
    holds scalar values only, and every float round-trips. *)
Fixpoint text_faithful `{Interpreter} (depth : nat) (o : pyval) : bool :=
  match depth with
  | O => true
  | S depth =>
      match o with
      | PStr s => forallb scalar s
      | PFloat f => float_round_trips f
      | PNone | PBool _ | PInt _ => true
      | PList lst | PTuple lst => forallb (text_faithful depth) lst
      | PDict dct =>
          forallb (λ kv, key_faithful kv.1 && text_faithful depth kv.2) dct
      | _ =>
          match default o with
          | inr o' => text_faithful depth o'
          | inl _ => true
          end
      end
  end.

(** The JSON form of [o]: lists for lists and tuples, a dictionary keyed
    by the key texts (built as [dict] builds it, so a key text met again
    replaces the value of the first), the form of the conversion for an
    object a branch of the encoder applies to. [None] when the traversal
    stops. *)
Fixpoint loads_as `{Interpreter} (depth : nat) (o : pyval) : option pyval :=
  match depth with
  | O => None
  | S depth =>
      match o with
      | PNone | PBool _ | PInt _ | PFloat _ | PStr _ => Some o
      | PList lst | PTuple lst => PList <$> mapM (loads_as depth) lst
      | PDict dct =>
          (λ pairs, PDict (dict_of_pairs pairs)) <$>
          mapM (λ kv, match key_text kv.1 with
                      | inr k => (λ j, (k, j)) <$> loads_as depth kv.2
                      | inl _ => None
                      end) dct
      | _ =>
          match default o with
          | inr o' => loads_as depth o'
          | inl _ => None
          end
      end
  end.

(** What can follow a value in the text the encoder writes: the end of
    the text, a comma, a closing bracket or brace. *)
Definition delimited (rest : pystr) : bool :=
  match rest with
  | [] => true
  | c :: _ => (c =? 44) || (c =? 93) || (c =? 125)
  end.

(** The first character of the text of a value. *)
Definition value_start (c : N) : bool :=
  (c =? 34) || (c =? 91) || (c =? 123) || is_digit c || (c =? 45)
  || (c =? 110) || (c =? 116) || (c =? 102) || (c =? 78) || (c =? 73).

Definition starts_value (t : pystr) : Prop :=
  ∃ c t', t = c :: t' ∧ value_start c = true.

(** The generator [rec] runs to its end on [v], and the scanning function
    [f] reads the text it yields back as [j], wherever a delimiter
    follows. *)
Definition reads_back (rec : pyval → emitted) (f : pystr → scan pyval)
    (v j : pyval) : Prop :=
  (rec v).2 = None
  ∧ starts_value (rec v).1
  ∧ ∀ rest, delimited rest = true → f ((rec v).1 ++ rest) = Scanned j rest.

(** The same for a dictionary item and the pair it is read back as. *)
Definition item_reads_back `{Interpreter} (rec : pyval → emitted)
    (f : pystr → scan pyval) (kv : pyval * pyval) (pair : pystr * pyval)
    : Prop :=
  key_text kv.1 = inr pair.1
  ∧ forallb scalar pair.1 = true
  ∧ reads_back rec f kv.2 pair.2.

(** The string a dictionary item is keyed by. *)
Definition str_key (kv : pyval * pyval) : pystr :=
  match kv.1 with
  | PStr k => k
  | _ => []
  end.

(** A value made of the types JSON has, nested less than [depth] deep:
    [None], booleans, integers, floats, strings, lists of such values and
    dictionaries from distinct strings to such values. *)
Fixpoint json_native (depth : nat) (o : pyval) : bool :=
  match depth with
  | O => false
  | S depth =>
      match o with
      | PNone | PBool _ | PInt _ | PFloat _ | PStr _ => true
      | PList lst => forallb (json_native depth) lst
      | PDict dct =>
          forallb (λ kv, match kv.1 with
                         | PStr _ => json_native depth kv.2
                         | _ => false
                         end) dct
          && bool_decide (NoDup (str_key <$> dct))
      | _ => false
      end
  end.

(** A dictionary holding a timestamp and, under an integer key, a tuple
    with a complex number. *)
Definition example_record : pyval :=
  PDict [ (PStr (lit "date"), PDatetime new_year_2024);
          (PInt 1, PTuple [three_plus_four_j; PNone]) ].

(** A value of JSON types only. *)
Definition example_data : pyval :=
  PDict [ (PStr (lit "name"), PStr (lit "q" ++ [34; 233; 128512; 10]));
          (PStr (lit "t1"), PList [PFloat float_3; PInt (-20); PNone]);
          (PStr (lit "ok"), PBool true) ].

(** A scanning function that returns gives a value with property [P]. *)
Definition returns {A} (P : A → Prop) (r : scan A) : Prop :=
  match r with
  | Scanned a _ => P a
  | _ => True
  end.

(** A printable ASCII character: space to tilde. *)
Definition printable (c : N) : bool := (32 <=? c) && (c <=? 126).

(** ** Conversions that depend on the state of the program *)

(** The conversions of an object are code of its class, and that code
    can read and change the state of the program: a method takes the
    state and gives its outcome and the new state. The values above are
    the values whose conversions have a fixed outcome. The values below
    are the same with such methods in place of fixed outcomes; [world]
    is the type of the state. *)
Inductive sval (world : Type) : Type :=
  | SNone
  | SBool (b : bool)
  | SInt (n : Z)
  | SFloat (f : spec_float)
  | SStr (s : pystr)
  | SList (items : list (sval world))
  | STuple (items : list (sval world))
  | SDict (items : list (sval world * sval world))
  | SObj (cls : pystr)
         (tolist : option (smethod world))
         (as_complex : option (smethod world * smethod world))
         (as_datetime : option (smethod world))
         (to_dict : option (smethod world))
with smethod (world : Type) : Type :=
  | Method (run : world → scall world * world)
with scall (world : Type) : Type :=
  | SReturn (v : sval world)
  | SRaise (e : exn).
Arguments SNone {world}.
Arguments SBool {world} b.
Arguments SInt {world} n.
Arguments SFloat {world} f.
Arguments SStr {world} s.
Arguments SList {world} items.
Arguments STuple {world} items.
Arguments SDict {world} items.
Arguments SObj {world} cls tolist as_complex as_datetime to_dict.
Arguments Method {world} run.
Arguments SReturn {world} v.
Arguments SRaise {world} e.

(** Calling a method in a state. *)
Definition run_method {world} (m : smethod world) (σ : world)
    : result (sval world) * world :=
  match m with
  | Method run =>
      match run σ with
      | (SReturn v, σ') => (ok v, σ')
      | (SRaise e, σ') => (raise e, σ')
      end
  end.

Definition sclass_name {world} (o : sval world) : pystr :=
  match o with
  | SNone => lit "NoneType"
  | SBool _ => lit "bool"
  | SInt _ => lit "int"
  | SFloat _ => lit "float"
  | SStr _ => lit "str"
  | SList _ => lit "list"
  | STuple _ => lit "tuple"
  | SDict _ => lit "dict"
  | SObj cls _ _ _ _ => cls
  end.

(** [QiskitEncoder.default(self, obj)] on such a value: the four checks
    in their order; [real] is read before [imag]. *)
Definition sdefault {world} (obj : sval world) (σ : world)
    : result (sval world) * world :=
  match obj with
  | SObj _ (Some tolist) _ _ _ => run_method tolist σ
  | SObj _ None (Some (real, imag)) _ _ =>
      match run_method real σ with
      | (inl e, σ1) => (raise e, σ1)
      | (inr re, σ1) =>
          match run_method imag σ1 with
          | (inl e, σ2) => (raise e, σ2)
          | (inr im, σ2) => (ok (SList [re; im]), σ2)
          end
      end
  | SObj _ None None (Some isoformat) _ => run_method isoformat σ
  | SObj _ None None None (Some to_dict) => run_method to_dict σ
  | _ => (raise (TypeError_not_serializable (sclass_name obj)), σ)
  end.

(** A generator that runs in a state. *)
Definition sgen (world : Type) : Type := world → emitted * world.

Definition syield {world} (s : pystr) : sgen world := λ σ, (yield s, σ).
Definition sthrow {world} (e : exn) : sgen world := λ σ, (throw e, σ).

(** Run [a], then [b] in the state [a] left, unless [a] was stopped by
    an exception. *)
Definition sandthen {world} (a b : sgen world) : sgen world :=
  λ σ, match a σ with
       | ((s, None), σ1) =>
           match b σ1 with
           | (r, σ2) => ((s ++ r.1, r.2), σ2)
           end
       | ((s, Some e), σ1) => ((s, Some e), σ1)
       end.

Infix ">>>" := sandthen (at level 61, left associativity).

Fixpoint siterencode_values {world} (rec : sval world → sgen world)
    (first : bool) (lst : list (sval world)) : sgen world :=
  match lst with
  | [] => syield []
  | value :: rest =>
      syield (if first then lit "[" else lit ", ") >>> rec value
      >>> siterencode_values rec false rest
  end.

Definition siterencode_list {world} (rec : sval world → sgen world)
    (lst : list (sval world)) : sgen world :=
  match lst with
  | [] => syield (lit "[]")
  | _ => siterencode_values rec true lst >>> syield (lit "]")
  end.

Definition skey_text `{Interpreter} {world} (key : sval world)
    : result pystr :=
  match key with
  | SStr s => ok s
  | SFloat f => ok (floatstr f)
  | SBool true => ok (lit "true")
  | SBool false => ok (lit "false")
  | SNone => ok (lit "null")
  | SInt n => ok (int_repr n)
  | _ => raise (TypeError_keys (sclass_name key))
  end.

Fixpoint siterencode_items `{Interpreter} {world}
    (rec : sval world → sgen world) (first : bool)
    (items : list (sval world * sval world)) : sgen world :=
  match items with
  | [] => syield []
  | (key, value) :: rest =>
      match skey_text key with
      | inl e => sthrow e
      | inr k =>
          syield (if first then [] else lit ", ")
          >>> syield (encode_basestring_ascii k) >>> syield (lit ": ")
          >>> rec value >>> siterencode_items rec false rest
      end
  end.

Definition siterencode_dict `{Interpreter} {world}
    (rec : sval world → sgen world)
    (dct : list (sval world * sval world)) : sgen world :=
  match dct with
  | [] => syield (lit "{}")
  | _ =>
      syield (lit "{") >>> siterencode_items rec true dct
      >>> syield (lit "}")
  end.

(** [_iterencode] with conversions that run in the state: the traversal
    of [iterencode], each call of [default] made in the state the calls
    before it left. *)
Fixpoint siterencode `{Interpreter} {world} (depth : nat) (o : sval world)
    : sgen world :=
  match depth with
  | O => sthrow RecursionError
  | S depth =>
      match o with
      | SStr s => syield (encode_basestring_ascii s)
      | SNone => syield (lit "null")
      | SBool true => syield (lit "true")
      | SBool false => syield (lit "false")
      | SInt n => syield (int_repr n)
      | SFloat f => syield (floatstr f)
      | SList lst | STuple lst => siterencode_list (siterencode depth) lst
      | SDict dct => siterencode_dict (siterencode depth) dct
      | _ =>
          λ σ, match sdefault o σ with
               | (inl e, σ1) => sthrow e σ1
               | (inr o', σ1) => siterencode depth o' σ1
               end
      end
  end.

(** [save_to_json(obj, filename)] in a state of the program: what it
    leaves in the file store, the state it leaves, and how it ends. *)
Definition ssave_to_json `{Interpreter} {world} (obj : sval world)
    (filename : string) (fs : filesystem) (σ : world)
    : filesystem * world * result unit :=
  match open_w filename fs with
  | inl e => (fs, σ, raise e)
  | inr fs' =>
      match siterencode recursion_limit obj σ with
      | ((text, stopped), σ') =>
          (write filename text fs', σ',
           match stopped with Some e => raise e | None => ok tt end)
      end
  end.

(** The conversions the encoder calls on a value within a number of
    nested calls have outcomes that do not depend on the state: at each
    object the traversal comes to, [default] raises the same exception
    in every state, or returns the same value in every state and that
    value is again such a value. *)
Inductive stateless {world} : nat → sval world → Prop :=
  | stateless_limit o : stateless O o
  | stateless_none n : stateless (S n) SNone
  | stateless_bool n b : stateless (S n) (SBool b)
  | stateless_int n z : stateless (S n) (SInt z)
  | stateless_float n f : stateless (S n) (SFloat f)
  | stateless_str n s : stateless (S n) (SStr s)
  | stateless_list n items :
      Forall (stateless n) items → stateless (S n) (SList items)
  | stateless_tuple n items :
      Forall (stateless n) items → stateless (S n) (STuple items)
  | stateless_dict n items :
      Forall (λ kv, stateless n kv.2) items → stateless (S n) (SDict items)
  | stateless_raises n cls tl cx dt td e :
      (∀ σ, (sdefault (SObj cls tl cx dt td) σ).1 = raise e) →
      stateless (S n) (SObj cls tl cx dt td)
  | stateless_returns n cls tl cx dt td o' :
      (∀ σ, (sdefault (SObj cls tl cx dt td) σ).1 = ok o') →
      stateless n o' →
      stateless (S n) (SObj cls tl cx dt td).

(** The output of a generator does not depend on the state it starts
    in. *)
Definition same_output {world} (g : sgen world) : Prop :=
  ∀ σ1 σ2, (g σ1).1 = (g σ2).1.

(** What the specification says of two calls with equal inputs: they
    leave the same text in the file. *)
Definition writes_same_text `{Interpreter} {world} (obj : sval world)
    (filename : string) (fs : filesystem) (σ : world) : Prop :=
  let first := ssave_to_json obj filename fs σ in
  let second := ssave_to_json obj filename first.1.1 first.1.2 in
  files first.1.1 !! filename = files second.1.1 !! filename.

(** An object that counts the calls of its [tolist] method and returns
    the count; the state of the program is the counter. *)
Definition counting_array : sval nat :=
  SObj (lit "Counter")
    (Some (Method (λ n, (SReturn (SInt (Z.of_nat n)), S n))))
    None None None.

(** An object whose [to_dict] method returns the same mapping whatever
    the state, and counts its calls. *)
Definition constant_record : sval nat :=
  SObj (lit "Record") None None None
    (Some (Method (λ n, (SReturn (SDict [(SStr (lit "shots"), SInt 1024)]),
                         S n)))).

(** ** The round trip, as the specification words it *)

(** A domain object of class [cls] that is saved through its [to_dict]
    method, which returns [mapping]. *)
Definition mapping_capable (cls : pystr) (mapping : pyval) : pyval :=
  PObj cls None None None (Some (Return mapping)).

(** The round trip of the specification for such an object [r]: where
    the load routine matches, that is [from_dict] rebuilds [r] from the
    mapping [to_dict] gave, loading the saved file gives [r] again. *)
Definition reconstructs `{Interpreter} `{Qiskit} (cls : pystr)
    (mapping : pyval) (r : Result) (filename : string) (fs : filesystem)
    : Prop :=
  Result_from_dict mapping = ok r →
  load_result filename
    (save_to_json (mapping_capable cls mapping) filename fs).1
  = ok (Single r).

(** A mapping with an integer key. *)
Definition counts_by_outcome : pyval := PDict [(PInt 1, PInt 1024)].

(** * Properties *)

(** Turn the boolean tests on code points in the context into
    arithmetic facts. *)
Ltac nbool :=
  repeat match goal with
  | H : (_ =? _) = true |- _ => apply N.eqb_eq in H
  | H : (_ =? _) = false |- _ => apply N.eqb_neq in H
  | H : (_ <=? _) = true |- _ => apply N.leb_le in H
  | H : (_ <=? _) = false |- _ => apply N.leb_gt in H
  | H : (_ <? _) = true |- _ => apply N.ltb_lt in H
  | H : (_ <? _) = false |- _ => apply N.ltb_ge in H
  | H : negb _ = true |- _ => apply negb_true_iff in H
  | H : negb _ = false |- _ => apply negb_false_iff in H
  | H : _ && _ = true |- _ => apply andb_prop in H as [? ?]
  | H : _ || _ = false |- _ => apply orb_false_elim in H as [? ?]
  | H : _ || _ = true |- _ => apply orb_prop in H as [?|?]
  | H : _ && _ = false |- _ => apply andb_false_iff in H as [?|?]
  end.

(** ** The fallback of the encoder *)

Lemma default_native (o : pyval) :
  applies o = false →
  default o = raise (TypeError_not_serializable (class_name o)).
Proof.
  unfold applies, default. intros Hno.
  repeat (apply orb_false_iff in Hno as [Hno ?]).
  by rewrite Hno, H1, H0, H.
Qed.

(** C1. The fallback returns what the first applicable check of the
    specification's priority order converts the value to, and falls
    through to the unsupported-type error when none applies. A value with
    both the [tolist] and the [to_dict] capability is converted by
    [tolist] whatever [to_dict] would return, and the encoder goes on
    with the sequence [tolist] returned. *)
Theorem C1_priority_order :
  (∀ obj,
     default obj =
       match List.find (λ b, b.1 obj) priority_order with
       | Some b => b.2 obj
       | None => JSONEncoder_default obj
       end)
  ∧ (∀ cls seq cx dt mapping,
       default (PObj cls (Some seq) cx dt (Some mapping)) = invoke seq)
  ∧ (∀ (I : Interpreter) depth cls v cx dt mapping,
       iterencode (S depth) (PObj cls (Some (Return v)) cx dt (Some mapping))
       = iterencode depth v).
Proof.
  split; [|split].
  - intros obj. unfold default. simpl.
    destruct (has_tolist obj); [done|].
    destruct (is_complex obj); [done|].
    destruct (is_datetime obj); [done|].
    by destruct (has_to_dict obj).
  - done.
  - done.
Qed.



(** C5. A complex number without [tolist] is converted to the list of
    its real and imaginary part; [3+4j] gives the list of the floats 3.0
    and 4.0, which are equal to the integers 3 and 4. *)
Theorem C5_complex :
  (∀ cls re im dt td,
     default (PObj cls None (Some (Return re, Return im)) dt td)
     = ok (PList [re; im]))
  ∧ (∀ re im, default (PComplex re im) = ok (PList [PFloat re; PFloat im]))
  ∧ default three_plus_four_j = ok (PList [PFloat float_3; PFloat float_4])
  ∧ float_eqb_int float_3 3 = true
  ∧ float_eqb_int float_4 4 = true.
Proof. done. Qed.

(** C6, as the specification states it, fails on a timestamp whose
    [tzinfo] does not implement [utcoffset]: it has no [tolist] and is
    not complex, and the fallback raises [NotImplementedError] instead
    of returning a string. *)
Lemma C6_counterexample :
  has_tolist (PDatetime new_year_2024_abstract_tz) = false
  ∧ is_complex (PDatetime new_year_2024_abstract_tz) = false
  ∧ is_datetime (PDatetime new_year_2024_abstract_tz) = true
  ∧ default (PDatetime new_year_2024_abstract_tz)
    = raise (Raised (lit "NotImplementedError"))
  ∧ ¬ converted_to_string (PDatetime new_year_2024_abstract_tz).
Proof.
  repeat split; try done. intros [text Htext]. discriminate.
Qed.

(** C6, amended. For a timestamp that has no [tolist] and is not
    complex, the outcome of the fallback is the outcome of its
    [isoformat()] call, a returned value or an exception. For a builtin
    [datetime] this is the ISO 8601 text when [utcoffset()] returns, and
    the exception of [utcoffset()] when it raises; midnight of 1 January
    2024 without [tzinfo] gives "2024-01-01T00:00:00". *)
Theorem C6_timestamp :
  (∀ cls method td,
     default (PObj cls None None (Some method) td) = invoke method)
  ∧ (∀ d off,
       utcoffset d = ok off →
       default (PDatetime d)
       = ok (PStr (zfill 4 (year d) ++ lit "-" ++ zfill 2 (month d)
                   ++ lit "-" ++ zfill 2 (day d) ++ lit "T"
                   ++ format_time (hour d) (minute d) (second d)
                        (microsecond d)
                   ++ format_offset off)))
  ∧ (∀ d e, utcoffset d = raise e → default (PDatetime d) = raise e)
  ∧ default (PDatetime new_year_2024)
    = ok (PStr (lit "2024-01-01T00:00:00")).
Proof.
  split; [done|]. split; [|split].
  - intros d off Hoff. unfold PDatetime, datetime_isoformat, isoformat.
    by rewrite Hoff.
  - intros d e He. unfold PDatetime, datetime_isoformat, isoformat.
    by rewrite He.
  - vm_compute. done.
Qed.

Lemma C6_witness :
  default (PDatetime (mk_datetime 2024 1 1 9 30 0 250000 (ok (Some 3600000000%Z))))
  = ok (PStr (lit "2024-01-01T09:30:00.250000+01:00")).
Proof.
  exact (proj1 (proj2 C6_timestamp)
           (mk_datetime 2024 1 1 9 30 0 250000 (ok (Some 3600000000%Z)))
           (Some 3600000000%Z) eq_refl).
Defined.

(** ** Loading *)

Lemma json_loads_raises `{Interpreter} (s : pystr) (e : exn) :
  json_loads s = raise e → parse_error e.
Proof.
  unfold json_loads. destruct (strip_prefix _ s); [by intros [= <-]|].
  destruct (scan_once _ _) as [obj r|r|msg r|]; try by intros [= <-].
  by destruct (skip_ws r); intros [= <-].
Qed.

Lemma comprehension_Forall2 {A B} (f : A → result B) (tmp : list A)
    (xs : list B) :
  comprehension f tmp = ok xs ↔ Forall2 (λ i x, f i = ok x) tmp xs.
Proof.
  revert xs. induction tmp as [|i rest IH]; intros xs; simpl.
  - split.
    + intros [= <-]. constructor.
    + by intros ->%Forall2_nil_inv_l.
  - split.
    + destruct (f i) as [e|x] eqn:Hi; [discriminate|]. simpl.
      destruct (comprehension f rest) as [e|xs'] eqn:Hrest; [discriminate|].
      intros [= <-]. constructor; [done|]. by apply IH.
    + intros (x & xs' & Hx & Hxs & ->)%Forall2_cons_inv_l.
      rewrite Hx. simpl. apply IH in Hxs. by rewrite Hxs.
Qed.

(** C8. Once the file is open, [load_properties] hands the parsed value
    to the factory and returns whatever the factory returns or raises;
    when the text does not parse, the decoder's own error is raised. *)
Theorem C8_load_properties `{Interpreter} `{Qiskit} (filename : string)
    (fs : filesystem) (text : pystr) :
  open_r filename fs = ok text →
  (∀ tmp, json_loads text = ok tmp →
     load_properties filename fs = BackendProperties_from_dict tmp)
  ∧ (∀ e, json_loads text = raise e →
       load_properties filename fs = raise e ∧ parse_error e).
Proof.
  intros Hopen. unfold load_properties, json_load. rewrite Hopen. simpl.
  split.
  - by intros tmp ->.
  - intros e He. split; [by rewrite He|]. by eapply json_loads_raises.
Qed.

Lemma C8_witness :
  open_r "props.json" (one_file "props.json" one_result_text)
  = ok one_result_text
  ∧ @load_properties example_interpreter example_qiskit "props.json"
      (one_file "props.json" one_result_text)
    = ok [(PStr (lit "a"), PInt 1)].
Proof.
  split; [reflexivity|].
  exact (proj1 (@C8_load_properties example_interpreter example_qiskit
                  "props.json" (one_file "props.json" one_result_text)
                  one_result_text eq_refl)
               (PDict [(PStr (lit "a"), PInt 1)]) eq_refl).
Defined.

(** C2. When the parsed value is a list, [load_result] returns the list
    of the results rebuilt from its elements, one per element and in the
    same order; otherwise it returns the single result rebuilt from the
    parsed value. *)
Theorem C2_load_result_shape `{Interpreter} `{Qiskit} (filename : string)
    (fs : filesystem) (text : pystr) (tmp : pyval) :
  open_r filename fs = ok text →
  json_loads text = ok tmp →
  match tmp with
  | PList items =>
      ∀ rs, Forall2 (λ i r, Result_from_dict i = ok r) items rs →
            load_result filename fs = ok (Many rs)
            ∧ length rs = length items
  | _ =>
      ∀ r, Result_from_dict tmp = ok r →
           load_result filename fs = ok (Single r)
  end.
Proof.
  intros Hopen Hloads. unfold load_result, json_load.
  rewrite Hopen. simpl. rewrite Hloads. simpl.
  destruct tmp; try (by intros r ->).
  intros rs Hrs. split; [|symmetry; by eapply Forall2_length].
  apply comprehension_Forall2 in Hrs. by rewrite Hrs.
Qed.

Lemma C2_witness :
  @load_result example_interpreter example_qiskit "results.json"
    (one_file "results.json" two_results_text)
  = ok (@Many example_qiskit [[(PStr (lit "a"), PInt 1)]; []])
  ∧ @load_result example_interpreter example_qiskit "result.json"
      (one_file "result.json" one_result_text)
    = ok (@Single example_qiskit [(PStr (lit "a"), PInt 1)]).
Proof.
  split.
  - refine (proj1 (@C2_load_result_shape example_interpreter example_qiskit
               "results.json" (one_file "results.json" two_results_text)
               two_results_text
               (PList [PDict [(PStr (lit "a"), PInt 1)]; PDict []])
               eq_refl eq_refl
               [[(PStr (lit "a"), PInt 1)]; []] _)).
    repeat constructor.
  - exact (@C2_load_result_shape example_interpreter example_qiskit
             "result.json" (one_file "result.json" one_result_text)
             one_result_text (PDict [(PStr (lit "a"), PInt 1)])
             eq_refl eq_refl [(PStr (lit "a"), PInt 1)] eq_refl).
Defined.

(** C9. A file whose text parses to the empty list loads as the empty
    list of results, whatever the factory would do; the text "[]" parses
    to the empty list as soon as one nested call is allowed. *)
Theorem C9_empty_array `{Interpreter} `{Qiskit} (filename : string)
    (fs : filesystem) (text : pystr) :
  open_r filename fs = ok text →
  json_loads text = ok (PList []) ∨ (text = lit "[]" ∧ recursion_limit ≠ O) →
  load_result filename fs = ok (Many []).
Proof.
  intros Hopen Hempty.
  assert (json_loads text = ok (PList [])) as Hloads.
  { destruct Hempty as [?|[-> Hlimit]]; [done|].
    unfold json_loads. simpl.
    destruct recursion_limit; [done|]. reflexivity. }
  unfold load_result, json_load. rewrite Hopen. simpl. by rewrite Hloads.
Qed.

Lemma C9_witness :
  @load_result example_interpreter rejecting_qiskit "results.json"
    (one_file "results.json" (lit "[]"))
  = ok (@Many rejecting_qiskit []).
Proof.
  apply (@C9_empty_array example_interpreter rejecting_qiskit
           "results.json" (one_file "results.json" (lit "[]")) (lit "[]")).
  - reflexivity.
  - right. split; [reflexivity | discriminate].
Defined.

(** ** Saving *)

Lemma save_to_json_written `{Interpreter} (obj : pyval) (filename : string)
    (fs : filesystem) :
  filename ∉ denied fs →
  files (save_to_json obj filename fs).1 !! filename
  = Some (iterencode recursion_limit obj).1
  ∧ (save_to_json obj filename fs).2
    = match (iterencode recursion_limit obj).2 with
      | Some e => raise e
      | None => ok tt
      end.
Proof.
  intros Hfree. unfold save_to_json, open_w.
  destruct (decide (filename ∈ denied fs)) as [?|_]; [done|].
  unfold json_dump. destruct (iterencode recursion_limit obj) as [text stopped].
  simpl. split; [|done].
  by rewrite lookup_alter_eq, lookup_insert_eq.
Qed.

(** ** Two runs of the encoder *)

Lemma same_output_syield {world} (s : pystr) :
  same_output (@syield world s).
Proof. done. Qed.

Lemma same_output_sthrow {world} (e : exn) :
  same_output (@sthrow world e).
Proof. done. Qed.

Lemma same_output_sandthen {world} (a b : sgen world) :
  same_output a → same_output b → same_output (a >>> b).
Proof.
  intros Ha Hb σ1 σ2. unfold sandthen. specialize (Ha σ1 σ2).
  destruct (a σ1) as [[s1 stop1] σ1'], (a σ2) as [[s2 stop2] σ2'].
  simpl in Ha. injection Ha as -> ->. destruct stop2 as [e|]; [done|].
  specialize (Hb σ1' σ2').
  destruct (b σ1') as [r1 σ1''], (b σ2') as [r2 σ2'']. simpl in *.
  by rewrite Hb.
Qed.

Lemma same_output_values {world} (rec : sval world → sgen world)
    (first : bool) (lst : list (sval world)) :
  Forall (λ v, same_output (rec v)) lst →
  same_output (siterencode_values rec first lst).
Proof.
  intros Hlst. revert first.
  induction Hlst as [|v lst Hv _ IH]; intros first;
    cbn [siterencode_values]; [apply same_output_syield|].
  repeat apply same_output_sandthen; try done; try apply IH.
Qed.

Lemma same_output_items `{Interpreter} {world}
    (rec : sval world → sgen world) (first : bool)
    (items : list (sval world * sval world)) :
  Forall (λ kv, same_output (rec kv.2)) items →
  same_output (siterencode_items rec first items).
Proof.
  intros Hitems. revert first.
  induction Hitems as [|[k v] items Hv _ IH]; intros first;
    cbn [siterencode_items]; [apply same_output_syield|].
  destruct (skey_text k); [apply same_output_sthrow|].
  repeat apply same_output_sandthen; try done; try apply IH.
Qed.

Lemma siterencode_stateless `{Interpreter} {world} (depth : nat)
    (o : sval world) :
  stateless depth o → same_output (siterencode depth o).
Proof.
  revert o. induction depth as [|depth IH]; intros o Hs;
    [apply same_output_sthrow|].
  inversion Hs as [|? |? b|? z|? f|? s|? items Hitems|? items Hitems
                  |? items Hitems|? cls tl cx dt td e He
                  |? cls tl cx dt td o' Ho' Hs'];
    subst; cbn [siterencode]; try apply same_output_syield.
  - destruct b; apply same_output_syield.
  - destruct items as [|v lst]; [apply same_output_syield|].
    apply same_output_sandthen; [|apply same_output_syield].
    apply same_output_values. eapply Forall_impl; [exact Hitems|]. apply IH.
  - destruct items as [|v lst]; [apply same_output_syield|].
    apply same_output_sandthen; [|apply same_output_syield].
    apply same_output_values. eapply Forall_impl; [exact Hitems|]. apply IH.
  - destruct items as [|kv dct]; [apply same_output_syield|].
    unfold siterencode_dict.
    repeat apply same_output_sandthen; try apply same_output_syield.
    apply same_output_items. eapply Forall_impl; [exact Hitems|].
    intros [k v]. apply IH.
  - intros σ1 σ2. pose proof (He σ1) as H1. pose proof (He σ2) as H2.
    destruct (sdefault _ σ1) as [r1 σ1'], (sdefault _ σ2) as [r2 σ2'].
    simpl in H1, H2. by subst r1 r2.
  - intros σ1 σ2. pose proof (Ho' σ1) as H1. pose proof (Ho' σ2) as H2.
    destruct (sdefault _ σ1) as [r1 σ1'], (sdefault _ σ2) as [r2 σ2'].
    simpl in H1, H2. subst r1 r2. by apply IH.
Qed.

Lemma ssave_to_json_written `{Interpreter} {world} (obj : sval world)
    (filename : string) (fs : filesystem) (σ : world) :
  filename ∉ denied fs →
  files (ssave_to_json obj filename fs σ).1.1 !! filename
  = Some (siterencode recursion_limit obj σ).1.1
  ∧ (ssave_to_json obj filename fs σ).2
    = match (siterencode recursion_limit obj σ).1.2 with
      | Some e => raise e
      | None => ok tt
      end
  ∧ denied (ssave_to_json obj filename fs σ).1.1 = denied fs.
Proof.
  intros Hfree. unfold ssave_to_json, open_w.
  destruct (decide (filename ∈ denied fs)) as [?|_]; [done|].
  destruct (siterencode recursion_limit obj σ) as [[text stopped] σ'].
  simpl. split; [|done].
  by rewrite lookup_alter_eq, lookup_insert_eq.
Qed.




(** ** The bracket structure of what the encoder writes *)

Lemma lex_app (s1 s2 : pystr) (st : lexmode * nat) :
  lex (s1 ++ s2) st = lex s2 (lex s1 st).
Proof. apply foldl_app. Qed.

Lemma lex_cons (c : N) (s : pystr) (st : lexmode * nat) :
  lex (c :: s) st = lex s (lex_step st c).
Proof. done. Qed.

Lemma lex_step_numeric (c : N) (d : nat) :
  number_char c = true → lex_step (Outside, d) c = (Outside, d).
Proof.
  unfold number_char, is_digit, lex_step. intros Hc.
  repeat case_match; try done; exfalso; nbool; lia.
Qed.

Lemma lex_numeric (s : pystr) (d : nat) :
  forallb number_char s = true → lex s (Outside, d) = (Outside, d).
Proof.
  induction s as [|c s IH]; [done|].
  intros Hcs. simpl in Hcs. apply andb_prop in Hcs as [Hc Hs].
  by rewrite lex_cons, lex_step_numeric, IH.
Qed.

Lemma uint_chars_numeric (u : Decimal.uint) :
  forallb number_char (uint_chars u) = true.
Proof. induction u; simpl; auto. Qed.

Lemma lex_int_repr (z : Z) (d : nat) :
  lex (int_repr z) (Outside, d) = (Outside, d).
Proof.
  apply lex_numeric. unfold int_repr.
  destruct (Z.to_int z); simpl; apply uint_chars_numeric.
Qed.

Lemma lex_floatstr `{Interpreter} (f : spec_float) (d : nat) :
  float_repr_numeric → lex (floatstr f) (Outside, d) = (Outside, d).
Proof.
  intros Hnum. destruct f as [s|[]| |s m e]; simpl;
    try (by apply lex_numeric, Hnum); reflexivity.
Qed.

Lemma hex_digit_plain (n : N) : hex_digit n ≠ 34 ∧ hex_digit n ≠ 92.
Proof. unfold hex_digit. case_match; nbool; lia. Qed.

Lemma lex_step_in_string (c : N) (d : nat) :
  c ≠ 34 → c ≠ 92 → lex_step (InString, d) c = (InString, d).
Proof.
  intros H34 H92. unfold lex_step.
  by rewrite (proj2 (N.eqb_neq c 92)), (proj2 (N.eqb_neq c 34)).
Qed.

Lemma lex_u_escape (n : N) (d : nat) :
  lex (u_escape n) (InString, d) = (InString, d).
Proof.
  unfold u_escape. rewrite !lex_cons.
  change (lex_step (lex_step (InString, d) 92) 117) with (InString, d).
  rewrite !lex_step_in_string; try apply hex_digit_plain. done.
Qed.

Lemma lex_ESCAPE_DCT (c : N) (r : pystr) (d : nat) :
  ESCAPE_DCT c = Some r → lex r (InString, d) = (InString, d).
Proof.
  unfold ESCAPE_DCT. repeat case_match; by intros [= <-].
Qed.

Lemma lex_replace (c : N) (d : nat) :
  lex (replace c) (InString, d) = (InString, d).
Proof.
  unfold replace. destruct (ESCAPE_DCT c) as [r|] eqn:Hr.
  - by eapply lex_ESCAPE_DCT.
  - case_match; [apply lex_u_escape|].
    by rewrite lex_app, !lex_u_escape.
Qed.

Lemma lex_escaped_char (c : N) (d : nat) :
  lex (if ESCAPE_ASCII c then replace c else [c]) (InString, d)
  = (InString, d).
Proof.
  destruct (ESCAPE_ASCII c) eqn:Hc; [apply lex_replace|].
  unfold ESCAPE_ASCII in Hc. nbool.
  rewrite lex_cons, lex_step_in_string; done.
Qed.

Lemma lex_string_body (s : pystr) (d : nat) :
  lex (concat ((λ c, if ESCAPE_ASCII c then replace c else [c]) <$> s))
      (InString, d)
  = (InString, d).
Proof.
  induction s as [|c s IH]; [done|].
  rewrite fmap_cons. simpl. by rewrite lex_app, lex_escaped_char.
Qed.

Lemma lex_encode_basestring (s : pystr) (d : nat) :
  lex (encode_basestring_ascii s) (Outside, d) = (Outside, d).
Proof.
  unfold encode_basestring_ascii.
  rewrite !lex_app. replace (lex [34] (Outside, d)) with (InString, d) by done.
  by rewrite lex_string_body.
Qed.

Lemma emits_yield (lo d dok : nat) (s : pystr) :
  lex s (Outside, d) = (Outside, dok) → emits lo d dok (yield s).
Proof. done. Qed.

Lemma emits_throw (lo d dok : nat) (e : exn) :
  (lo ≤ d)%nat → emits lo d dok (throw e).
Proof. intros Hlo. by exists d. Qed.

Lemma emits_andthen (lo d d1 d2 : nat) (a b : emitted) :
  emits lo d d1 a → emits lo d1 d2 b → emits lo d d2 (a >> b).
Proof.
  destruct a as [s [e|]], b as [t r]; unfold emits; simpl; [done|].
  intros Hs. rewrite lex_app, Hs. done.
Qed.

Lemma emits_value_inner (d : nat) (r : emitted) :
  emits_value d r → emits d d d r.
Proof.
  unfold emits_value, emits. destruct r.2; [|done].
  intros (d' & Hlex & [Hnil|Hlt]); exists d'; split; try done; [|lia].
  rewrite Hnil in Hlex. injection Hlex as <-. done.
Qed.

Lemma emits_value_outer (d : nat) (r : emitted) :
  emits (S d) d d r → emits_value d r.
Proof.
  unfold emits_value, emits. destruct r.2; [|done].
  intros (d' & Hlex & Hle). exists d'. split; [done|]. right. lia.
Qed.

Lemma iterencode_values_emits (rec : pyval → emitted) (d : nat)
    (first : bool) (lst : list pyval) :
  (∀ v, emits_value (S d) (rec v)) →
  (first = true → lst ≠ []) →
  emits (S d) (if first then d else S d) (S d)
    (iterencode_values rec first lst).
Proof.
  intros Hrec. revert first.
  induction lst as [|value rest IH]; intros first Hfirst;
    cbn [iterencode_values].
  - destruct first; [by destruct Hfirst|]. by apply emits_yield.
  - apply emits_andthen with (S d); [apply emits_andthen with (S d)|].
    + apply emits_yield. by destruct first.
    + apply emits_value_inner, Hrec.
    + by apply (IH false).
Qed.

Lemma iterencode_list_emits (rec : pyval → emitted) (d : nat)
    (lst : list pyval) :
  (∀ v, emits_value (S d) (rec v)) →
  emits_value d (iterencode_list rec lst).
Proof.
  intros Hrec. destruct lst as [|value rest]; [done|].
  apply emits_value_outer. unfold iterencode_list.
  apply emits_andthen with (S d).
  - by apply (iterencode_values_emits rec d true).
  - by apply emits_yield.
Qed.

Lemma iterencode_items_emits `{Interpreter} (rec : pyval → emitted)
    (d : nat) (first : bool) (items : list (pyval * pyval)) :
  (∀ v, emits_value (S d) (rec v)) →
  emits (S d) (S d) (S d) (iterencode_items rec first items).
Proof.
  intros Hrec. revert first.
  induction items as [|[key value] rest IH]; intros first;
    cbn [iterencode_items].
  - by apply emits_yield.
  - destruct (key_text key) as [e|k]; [by apply emits_throw|].
    repeat (apply emits_andthen with (S d)).
    + apply emits_yield. by destruct first.
    + apply emits_yield, lex_encode_basestring.
    + by apply emits_yield.
    + apply emits_value_inner, Hrec.
    + apply IH.
Qed.

Lemma iterencode_dict_emits `{Interpreter} (rec : pyval → emitted)
    (d : nat) (dct : list (pyval * pyval)) :
  (∀ v, emits_value (S d) (rec v)) →
  emits_value d (iterencode_dict rec dct).
Proof.
  intros Hrec. destruct dct as [|item rest]; [done|].
  apply emits_value_outer. unfold iterencode_dict.
  apply emits_andthen with (S d); [apply emits_andthen with (S d)|].
  - by apply emits_yield.
  - by apply iterencode_items_emits.
  - by apply emits_yield.
Qed.

(** ** Saving twice *)


(** ** Loading: what stops it *)

Lemma comprehension_first_failure {A B} (f : A → result B)
    (before after : list A) (bad : A) (e : exn) :
  Forall (λ i, ∃ x, f i = ok x) before →
  f bad = raise e →
  comprehension f (before ++ bad :: after) = raise e.
Proof.
  intros Hbefore Hbad. induction Hbefore as [|i before [x Hx] _ IH]; simpl.
  - by rewrite Hbad.
  - by rewrite Hx, IH.
Qed.

(** When the file holds a list, [load_result] converts its elements
    from left to right and the first one the factory rejects ends the
    call with the factory's exception: the elements after it are never
    looked at and no partial list is returned. *)
Theorem load_result_first_failure `{Interpreter} `{Qiskit}
    (filename : string) (fs : filesystem)
    (before after : list pyval) (bad : pyval) (e : exn) :
  json_load filename fs = ok (PList (before ++ bad :: after)) →
  Forall (λ i, ∃ r, Result_from_dict i = ok r) before →
  Result_from_dict bad = raise e →
  load_result filename fs = raise e.
Proof.
  intros Hload Hbefore Hbad. unfold load_result. rewrite Hload. simpl.
  by rewrite (comprehension_first_failure _ before after bad e).
Qed.

Lemma load_result_first_failure_witness :
  @load_result example_interpreter example_qiskit "r.json"
    (one_file "r.json" (lit "[{}, 1, 2]"))
  = raise (Raised (lit "AttributeError")).
Proof.
  apply (@load_result_first_failure example_interpreter example_qiskit
           "r.json" (one_file "r.json" (lit "[{}, 1, 2]"))
           [PDict []] [PInt 2] (PInt 1) (Raised (lit "AttributeError"))).
  - reflexivity.
  - repeat constructor. by exists [].
  - reflexivity.
Defined.

(** ** When the encoder stops *)

Lemma andthen_stopped (a b : emitted) :
  (a >> b).2 = match a.2 with Some e => Some e | None => b.2 end.
Proof. by destruct a as [s [e|]]. Qed.

Lemma andthen_text_ok (a b : emitted) :
  a.2 = None → (a >> b).1 = a.1 ++ b.1.
Proof. destruct a as [s [e|]]; by intros. Qed.

Lemma iterencode_values_ok (rec : pyval → emitted) (first : bool)
    (lst : list pyval) :
  Forall (λ v, (rec v).2 = None) lst →
  (iterencode_values rec first lst).2 = None.
Proof.
  intros Hlst. revert first.
  induction Hlst as [|v lst Hv _ IH]; intros first; [done|].
  cbn [iterencode_values]. rewrite !andthen_stopped. simpl. by rewrite Hv.
Qed.

Lemma iterencode_values_stopped (rec : pyval → emitted) (first : bool)
    (lst : list pyval) (e : exn) :
  (iterencode_values rec first lst).2 = Some e →
  ∃ v, v ∈ lst ∧ (rec v).2 = Some e.
Proof.
  revert first. induction lst as [|v lst IH]; intros first; [done|].
  cbn [iterencode_values]. rewrite !andthen_stopped. simpl.
  destruct (rec v).2 as [e'|] eqn:Hv.
  - intros [= ->]. exists v. split; [left|done].
  - intros (v' & Hin & Hv')%IH. exists v'. split; [by right|done].
Qed.

Lemma iterencode_values_fails (rec : pyval → emitted) (first : bool)
    (lst : list pyval) (v : pyval) :
  v ∈ lst → (rec v).2 ≠ None →
  (iterencode_values rec first lst).2 ≠ None.
Proof.
  intros Hin Hv. revert first.
  induction Hin as [v lst|v w lst _ IH]; intros first;
    cbn [iterencode_values]; rewrite !andthen_stopped; simpl.
  - by destruct (rec v).2.
  - destruct (rec w).2; [done|]. apply IH, Hv.
Qed.

Lemma iterencode_list_stopped_eq (rec : pyval → emitted)
    (lst : list pyval) :
  (iterencode_list rec lst).2 = (iterencode_values rec true lst).2.
Proof.
  destruct lst as [|v lst]; [done|]. unfold iterencode_list.
  rewrite andthen_stopped. by destruct (iterencode_values _ _ _).2.
Qed.

Lemma key_text_typed `{Interpreter} (k : pyval) :
  key_typed k = true → ∃ t, key_text k = inr t.
Proof. destruct k as [|[]| | | | | | |]; try done; by eexists. Qed.

Lemma iterencode_items_ok `{Interpreter} (rec : pyval → emitted)
    (first : bool) (items : list (pyval * pyval)) :
  Forall (λ kv, key_typed kv.1 = true ∧ (rec kv.2).2 = None) items →
  (iterencode_items rec first items).2 = None.
Proof.
  intros Hitems. revert first.
  induction Hitems as [|[k v] items [Hk Hv] _ IH]; intros first; [done|].
  cbn [iterencode_items]. simpl in Hk, Hv.
  destruct (key_text_typed k Hk) as [t ->].
  rewrite !andthen_stopped. simpl. by rewrite Hv.
Qed.

Lemma iterencode_items_stopped `{Interpreter} (rec : pyval → emitted)
    (first : bool) (items : list (pyval * pyval)) (e : exn) :
  Forall (λ kv, key_typed kv.1 = true) items →
  (iterencode_items rec first items).2 = Some e →
  ∃ k v, (k, v) ∈ items ∧ (rec v).2 = Some e.
Proof.
  intros Hitems. revert first.
  induction Hitems as [|[k v] items Hk _ IH]; intros first; [done|].
  cbn [iterencode_items]. simpl in Hk.
  destruct (key_text_typed k Hk) as [t ->].
  rewrite !andthen_stopped. simpl.
  destruct (rec v).2 as [e'|] eqn:Hv.
  - intros [= ->]. exists k, v. split; [left|done].
  - intros (k' & v' & Hin & Hv')%IH. exists k', v'. split; [by right|done].
Qed.

Lemma iterencode_items_fails `{Interpreter} (rec : pyval → emitted)
    (first : bool) (items : list (pyval * pyval)) (k v : pyval) :
  (k, v) ∈ items → (rec v).2 ≠ None →
  (iterencode_items rec first items).2 ≠ None.
Proof.
  intros Hin Hv. revert first.
  remember (k, v) as kv eqn:Hkv.
  induction Hin as [kv items|kv w items _ IH]; intros first;
    cbn [iterencode_items].
  - subst kv. destruct (key_text k); [done|]. rewrite !andthen_stopped.
    simpl. by destruct (rec v).2.
  - destruct w as [k' v']. destruct (key_text k'); [done|].
    rewrite !andthen_stopped. simpl. destruct (rec v').2; [done|].
    by apply IH.
Qed.

Lemma iterencode_dict_stopped_eq `{Interpreter} (rec : pyval → emitted)
    (dct : list (pyval * pyval)) :
  (iterencode_dict rec dct).2 = (iterencode_items rec true dct).2.
Proof.
  destruct dct as [|kv dct]; [done|]. unfold iterencode_dict.
  generalize (iterencode_items rec true (kv :: dct)). intros r.
  rewrite !andthen_stopped. simpl. by destruct r.2.
Qed.

Lemma iterencode_unsupported `{Interpreter} (o : pyval) :
  unsupported_in o → ∀ depth, (iterencode depth o).2 ≠ None.
Proof.
  induction 1 as [cls|items v Hin _ IH|items v Hin _ IH|items k v Hin _ IH
                 |cls tl cx dt td o' Hdefault _ IH];
    intros [|depth]; try done; cbn [iterencode].
  - rewrite iterencode_list_stopped_eq.
    by apply iterencode_values_fails with v.
  - rewrite iterencode_list_stopped_eq.
    by apply iterencode_values_fails with v.
  - rewrite iterencode_dict_stopped_eq.
    by apply iterencode_items_fails with k v.
  - rewrite Hdefault. apply IH.
Qed.

Lemma iterencode_otherwise `{Interpreter} (n : nat) (o : pyval) (e : exn) :
  otherwise_encodable n o →
  (iterencode n o).2 = Some e →
  (∃ cls, e = TypeError_not_serializable cls) ∧ unsupported_in o.
Proof.
  revert o e. induction n as [|n IH]; intros o e Hoe; [inversion Hoe|].
  inversion Hoe as [|? b| | | |? items Hitems|? items Hitems|? items Hitems
                   |? cls|? cls tl cx dt td o' Hdefault Ho'];
    subst; cbn [iterencode]; try done.
  - by destruct b.
  - rewrite iterencode_list_stopped_eq.
    intros (v & Hin & Hv)%iterencode_values_stopped.
    rewrite Forall_forall in Hitems.
    destruct (IH v e (Hitems v Hin) Hv) as [Hcls Hun].
    split; [done|]. by apply unsupported_list with v.
  - rewrite iterencode_list_stopped_eq.
    intros (v & Hin & Hv)%iterencode_values_stopped.
    rewrite Forall_forall in Hitems.
    destruct (IH v e (Hitems v Hin) Hv) as [Hcls Hun].
    split; [done|]. by apply unsupported_tuple with v.
  - rewrite iterencode_dict_stopped_eq. intros Hstop.
    apply iterencode_items_stopped in Hstop as (k & v & Hin & Hv);
      [|by eapply Forall_impl; [exact Hitems|intros ? []]].
    rewrite Forall_forall in Hitems.
    destruct (IH v e (proj2 (Hitems (k, v) Hin)) Hv) as [Hcls Hun].
    split; [done|]. by apply unsupported_dict with k v.
  - intros [= <-]. split; [by eexists|constructor].
  - rewrite Hdefault. intros Hstop.
    destruct (IH o' e Ho' Hstop) as [Hcls Hun].
    split; [done|]. by apply unsupported_converted with o'.
Qed.

(** A value that holds, at any depth and also behind conversions, an
    object none of the four checks applies to cannot be saved:
    [save_to_json] raises for every file store and every recursion
    limit. *)
Theorem save_to_json_unsupported `{Interpreter} (obj : pyval)
    (filename : string) (fs : filesystem) :
  unsupported_in obj →
  ∃ e, (save_to_json obj filename fs).2 = raise e.
Proof.
  intros Hun. unfold save_to_json, open_w.
  destruct (decide (filename ∈ denied fs)); [by eexists|].
  unfold json_dump.
  pose proof (iterencode_unsupported obj Hun recursion_limit) as Hstop.
  destruct (iterencode recursion_limit obj) as [text [e|]]; [|done].
  by exists e.
Qed.

Lemma save_to_json_unsupported_witness :
  ∃ e, (@save_to_json example_interpreter one_and_a_set "a.json"
          (mk_fs ∅ ∅)).2 = raise e.
Proof.
  apply (@save_to_json_unsupported example_interpreter one_and_a_set
           "a.json" (mk_fs ∅ ∅)).
  apply unsupported_list with (PPlain (lit "set")).
  - right. left.
  - constructor.
Defined.

(** When the file can be opened, the conversions called return, the
    dictionary keys have key types and the nesting stays within the
    recursion limit, the outcome of [save_to_json] is decided by one
    thing: it returns exactly when the value holds no object without an
    applicable branch, and otherwise the exception is the unsupported-type
    error of [json.JSONEncoder.default]. *)
Theorem save_to_json_outcome `{Interpreter} (obj : pyval)
    (filename : string) (fs : filesystem) :
  filename ∉ denied fs →
  otherwise_encodable recursion_limit obj →
  ((save_to_json obj filename fs).2 = ok tt ↔ ¬ unsupported_in obj)
  ∧ (unsupported_in obj →
     ∃ cls, (save_to_json obj filename fs).2
            = raise (TypeError_not_serializable cls)).
Proof.
  intros Hfree Hoe.
  destruct (save_to_json_written obj filename fs Hfree) as [_ ->].
  pose proof (iterencode_otherwise recursion_limit obj) as Hstop.
  pose proof (iterencode_unsupported obj) as Hun.
  destruct (iterencode recursion_limit obj).2 as [e|] eqn:Hrun.
  - destruct (Hstop e Hoe eq_refl) as [[cls ->] Hin].
    split; [split|]; [done|by intros []|]. intros _. by exists cls.
  - split; [split|]; [|done|].
    + intros _ Hin. by apply (Hun Hin recursion_limit).
    + intros Hin. by destruct (Hun Hin recursion_limit).
Qed.

Lemma save_to_json_outcome_witness :
  ∃ cls, (@save_to_json example_interpreter one_and_a_set "a.json"
            (mk_fs ∅ ∅)).2
         = raise (TypeError_not_serializable cls).
Proof.
  refine (proj2 (@save_to_json_outcome example_interpreter one_and_a_set
                   "a.json" (mk_fs ∅ ∅) (not_elem_of_empty _) _) _).
  - apply oe_list. repeat constructor.
  - apply unsupported_list with (PPlain (lit "set")).
    + right. left.
    + constructor.
Defined.

(** ** The bracket structure of what the decoder accepts *)

Lemma iterencode_emits_value `{Interpreter} (depth : nat) (o : pyval)
    (d : nat) :
  float_repr_numeric → emits_value d (iterencode depth o).
Proof.
  intros Hnum. revert o d.
  induction depth as [|depth IH]; intros o d.
  { exists d. split; [done|by left]. }
  destruct o as [|[]|n|f|s|lst|lst|dct|cls tl cx dt td]; cbn [iterencode];
    try reflexivity.
  - unfold emits_value. simpl. apply lex_int_repr.
  - unfold emits_value. simpl. by apply lex_floatstr.
  - unfold emits_value. simpl. apply lex_encode_basestring.
  - apply iterencode_list_emits. intros v. apply IH.
  - apply iterencode_list_emits. intros v. apply IH.
  - apply iterencode_dict_emits. intros v. apply IH.
  - destruct (default _) as [e|o']; [|apply IH].
    exists d. split; [done|by left].
Qed.

Lemma lex_inert (t : pystr) (d : nat) :
  forallb inert t = true → lex t (Outside, d) = (Outside, d).
Proof.
  induction t as [|c t IH]; [done|].
  intros Hct. simpl in Hct. apply andb_prop in Hct as [Hc Ht].
  rewrite lex_cons. replace (lex_step (Outside, d) c) with (Outside, d).
  - by apply IH.
  - unfold inert in Hc. unfold lex_step. nbool.
    repeat case_match; try done; nbool; lia.
Qed.

Lemma balanced_app (t1 t2 : pystr) :
  balanced t1 → balanced t2 → balanced (t1 ++ t2).
Proof. intros H1 H2 d. by rewrite lex_app, H1, H2. Qed.

Lemma skip_ws_consumes (s : pystr) :
  ∃ w, s = w ++ skip_ws s ∧ forallb inert w = true.
Proof.
  induction s as [|c s (w & Hw & Hinert)]; [by exists []|].
  simpl. destruct (is_ws c) eqn:Hc; [|by exists []].
  exists (c :: w). split; [by rewrite Hw at 1|].
  simpl. rewrite Hinert, andb_true_r.
  unfold is_ws in Hc. nbool; by subst.
Qed.

Lemma strip_prefix_consumes (p s r : pystr) :
  strip_prefix p s = Some r → s = p ++ r.
Proof.
  revert s. induction p as [|a p IH]; intros [|b s]; simpl; try done.
  - by intros [= ->].
  - by intros [= ->].
  - destruct (a =? b) eqn:Hab; [|done]. nbool. subst.
    by intros ->%IH.
Qed.

Lemma span_digits_consumes (s ds r : pystr) :
  span_digits s = (ds, r) → s = ds ++ r ∧ forallb is_digit ds = true.
Proof.
  revert ds r. induction s as [|c s IH]; intros ds r; simpl.
  - by intros [= <- <-].
  - destruct (is_digit c) eqn:Hc; [|by intros [= <- <-]].
    destruct (span_digits s) as [ds' r'].
    destruct (IH ds' r' eq_refl) as [-> Hds].
    intros [= <- <-]. simpl. by rewrite Hc, Hds.
Qed.

Lemma digit_inert (c : N) : is_digit c = true → inert c = true.
Proof.
  unfold is_digit, inert. intros Hc. nbool.
  apply negb_true_iff. repeat apply orb_false_intro; apply N.eqb_neq; lia.
Qed.

Lemma digits_inert (ds : pystr) :
  forallb is_digit ds = true → forallb inert ds = true.
Proof.
  induction ds as [|c ds IH]; [done|]. simpl.
  intros [Hc Hds]%andb_prop. by rewrite digit_inert, IH.
Qed.

(** Case analysis on a code point down to its bits. *)
Ltac by_code c :=
  let p := fresh "p" in
  destruct c as [|p]; [done|];
  repeat (destruct p as [p|p|]; try done).

Lemma match_head_45 {A} (F : pystr → A) (G : A) (s : pystr) :
  match s with 45 :: s' => F s' | _ => G end
  = match s with c :: s' => if c =? 45 then F s' else G | [] => G end.
Proof. destruct s as [|c s]; [done|]. by_code c. Qed.

Lemma match_head_46 {A} (F : pystr → A) (G : A) (s : pystr) :
  match s with 46 :: s' => F s' | _ => G end
  = match s with c :: s' => if c =? 46 then F s' else G | [] => G end.
Proof. destruct s as [|c s]; [done|]. by_code c. Qed.

Lemma match_integer_eq (s : pystr) :
  match_integer s
  = let '(sign, s1) :=
      match s with
      | c :: s' => if c =? 45 then ([45], s') else ([], s)
      | [] => ([], s)
      end in
    match s1 with
    | c :: s2 =>
        if c =? 48 then Some (sign ++ [48], s2)
        else if is_digit c then
          let '(ds, r) := span_digits s2 in Some (sign ++ c :: ds, r)
        else None
    | [] => None
    end.
Proof. unfold match_integer. by rewrite match_head_45. Qed.

Lemma match_integer_unsigned (s i r : pystr) :
  match s with
  | c :: s2 =>
      if c =? 48 then Some ([48], s2)
      else if is_digit c then
        let '(ds, r) := span_digits s2 in Some (c :: ds, r)
      else None
  | [] => None
  end = Some (i, r) →
  s = i ++ r ∧ i ≠ [] ∧ forallb is_digit i = true.
Proof.
  destruct s as [|c s]; [done|].
  destruct (c =? 48) eqn:H0.
  - nbool. subst. by intros [= <- <-].
  - destruct (is_digit c) eqn:Hd; [|done].
    destruct (span_digits s) as [ds r'] eqn:Hsp.
    apply span_digits_consumes in Hsp as [-> Hds].
    intros [= <- <-]. simpl. by rewrite Hd, Hds.
Qed.

Lemma match_integer_consumes (s i r : pystr) :
  match_integer s = Some (i, r) →
  s = i ++ r ∧ i ≠ [] ∧ forallb inert i = true.
Proof.
  rewrite match_integer_eq. destruct s as [|c s]; [done|].
  destruct (c =? 45) eqn:Hc.
  - nbool. subst c. intros Hm.
    assert (∃ i', i = 45 :: i' ∧ s = i' ++ r ∧ forallb is_digit i' = true)
      as (i' & -> & -> & Hi').
    { destruct s as [|c s]; [done|]. revert Hm.
      destruct (c =? 48) eqn:H0.
      - nbool. subst. intros [= <- <-]. by exists [48].
      - destruct (is_digit c) eqn:Hd; [|done].
        destruct (span_digits s) as [ds r'] eqn:Hsp.
        apply span_digits_consumes in Hsp as [-> Hds].
        intros [= <- <-]. exists (c :: ds). simpl. by rewrite Hd, Hds. }
    simpl. by rewrite digits_inert.
  - intros Hm. cbn [app] in Hm.
    apply (match_integer_unsigned (c :: s)) in Hm as (-> & Hi & Hd).
    by rewrite digits_inert.
Qed.

Lemma match_frac_consumes (s r : pystr) (frac : option pystr) :
  match_frac s = (frac, r) →
  s = or_empty frac ++ r ∧ forallb inert (or_empty frac) = true.
Proof.
  unfold match_frac. rewrite match_head_46.
  destruct s as [|c s]; [by intros [= <- <-]|].
  destruct (c =? 46) eqn:Hc; [|by intros [= <- <-]].
  nbool. subst c.
  destruct (span_digits s) as [ds r'] eqn:Hsp.
  apply span_digits_consumes in Hsp as [-> Hds].
  destruct ds as [|d ds]; intros [= <- <-]; [done|].
  change (or_empty (Some (46 :: d :: ds))) with (46 :: d :: ds).
  split; [done|]. change (forallb inert (46 :: d :: ds))
    with (forallb inert (d :: ds)). by apply digits_inert.
Qed.

Lemma match_exp_consumes (s r : pystr) (exp : option pystr) :
  match_exp s = (exp, r) →
  s = or_empty exp ++ r ∧ forallb inert (or_empty exp) = true.
Proof.
  unfold match_exp. destruct s as [|c s]; [by intros [= <- <-]|].
  destruct ((c =? 101) || (c =? 69)) eqn:Hc; [|by intros [= <- <-]].
  assert (inert c = true) as Hinert by (nbool; by subst).
  assert (∃ sign s1, (match s with
                      | d :: s'' =>
                          if (d =? 43) || (d =? 45) then ([d], s'')
                          else ([], s)
                      | [] => ([], s)
                      end) = (sign, s1)
                     ∧ s = sign ++ s1 ∧ forallb inert sign = true)
    as (sign & s1 & -> & -> & Hsign).
  { destruct s as [|d s]; [by exists [], []|].
    destruct ((d =? 43) || (d =? 45)) eqn:Hd; [|by exists [], (d :: s)].
    exists [d], s. repeat split. nbool; by subst. }
  destruct (span_digits s1) as [ds r'] eqn:Hsp.
  apply span_digits_consumes in Hsp as [-> Hds].
  destruct ds as [|d ds]; intros [= <- <-]; [done|].
  change (or_empty (Some ?x)) with x.
  split; [simpl; by rewrite <- app_assoc|].
  simpl. rewrite Hinert. simpl. rewrite forallb_app, Hsign.
  by apply digits_inert.
Qed.

Lemma match_number_consumes (s integer r : pystr) (frac exp : option pystr) :
  match_number s = Some (integer, frac, exp, r) →
  s = (integer ++ or_empty frac ++ or_empty exp) ++ r
  ∧ integer ≠ []
  ∧ forallb inert (integer ++ or_empty frac ++ or_empty exp) = true.
Proof.
  unfold match_number.
  destruct (match_integer s) as [[i s1]|] eqn:Hi; [|done].
  destruct (match_frac s1) as [f s2] eqn:Hf.
  destruct (match_exp s2) as [e s3] eqn:He.
  intros [= <- <- <- <-].
  apply match_integer_consumes in Hi as (-> & Hne & Hi).
  apply match_frac_consumes in Hf as (-> & Hf).
  apply match_exp_consumes in He as (-> & He).
  split; [by rewrite <- !app_assoc|]. split; [done|].
  by rewrite !forallb_app, Hi, Hf, He.
Qed.

Lemma scans_prefix {A} (P Q : pystr → Prop) (t0 s : pystr) (r : scan A) :
  (∀ t, P t → Q (t0 ++ t)) → scans P s r → scans Q (t0 ++ s) r.
Proof.
  destruct r as [a rest| | |]; try done.
  intros HPQ (t & -> & Ht). exists (t0 ++ t).
  split; [by rewrite app_assoc|by apply HPQ].
Qed.

Lemma closes_string_after (t0 t : pystr) :
  stays_in_string t0 → closes_string t → closes_string (t0 ++ t).
Proof. intros H0 Ht d. by rewrite lex_app, H0, Ht. Qed.

Lemma stays_in_string_app (t1 t2 : pystr) :
  stays_in_string t1 → stays_in_string t2 → stays_in_string (t1 ++ t2).
Proof. intros H1 H2 d. by rewrite lex_app, H1, H2. Qed.

Lemma hex_value_plain (c v : N) : hex_value c = Some v → c ≠ 34 ∧ c ≠ 92.
Proof.
  unfold hex_value, is_digit. repeat case_match; try done; nbool; lia.
Qed.

Lemma decode_uXXXX_consumes (s r : pystr) (uni : N) :
  decode_uXXXX s = Some (uni, r) →
  ∃ h, s = h ++ r ∧ stays_in_string h.
Proof.
  unfold decode_uXXXX.
  destruct s as [|a [|b [|c [|d rest]]]]; try done.
  destruct (hex_value a) as [va|] eqn:Ha; [|done].
  destruct (hex_value b) as [vb|] eqn:Hb; [|done].
  destruct (hex_value c) as [vc|] eqn:Hc; [|done].
  destruct (hex_value d) as [vd|] eqn:Hd; [|done].
  intros [= <- <-]. exists [a; b; c; d]. split; [done|]. intros n.
  apply hex_value_plain in Ha as [? ?], Hb as [? ?], Hc as [? ?],
    Hd as [? ?].
  rewrite !lex_cons, !lex_step_in_string; done.
Qed.

Lemma decode_escape_Some (s r : pystr) (uni : N) :
  decode_escape s = Some (uni, r) →
  decode_uXXXX s = Some (uni, r) ∧ r ≠ [].
Proof.
  unfold decode_escape. destruct (decode_uXXXX s) as [[u [|c rest]]|];
    try done. by intros [= <- <-].
Qed.

Lemma scanstring_loop_scans (fuel : nat) (begin s acc : pystr) :
  scans closes_string s (scanstring_loop fuel begin s acc).
Proof.
  revert s acc. induction fuel as [|fuel IH]; intros s acc; [exact I|].
  cbn [scanstring_loop]. destruct s as [|c s1]; [exact I|].
  destruct (c =? 34) eqn:Hquote.
  { nbool. subst c. by exists [34]. }
  destruct (c =? 92) eqn:Hback.
  - nbool. subst c. destruct s1 as [|esc s2]; [exact I|].
    destruct (esc =? 117) eqn:Hu.
    + nbool. subst esc.
      destruct (decode_escape s2) as [[uni s3]|] eqn:Hdec; [|exact I].
      apply decode_escape_Some in Hdec as [Hdec _].
      apply decode_uXXXX_consumes in Hdec as (h & -> & Hh).
      assert (stays_in_string (92 :: 117 :: h)) as Hesc.
      { intros d. rewrite !lex_cons. apply Hh. }
      assert (scans closes_string (92 :: 117 :: h ++ s3)
                (scanstring_loop fuel begin s3 (uni :: acc))) as Hone.
      { apply (scans_prefix closes_string closes_string (92 :: 117 :: h));
          [|apply IH]. intros t. by apply closes_string_after. }
      destruct ((55296 <=? uni) && (uni <=? 56319) && (6 <? length s3)%nat);
        [|exact Hone].
      destruct (strip_prefix [92; 117] s3) as [s4|] eqn:Hpre; [|exact Hone].
      apply strip_prefix_consumes in Hpre as ->.
      destruct (decode_uXXXX s4) as [[uni2 s5]|] eqn:Hdec2; [|exact I].
      destruct ((56320 <=? uni2) && (uni2 <=? 57343)); [|exact Hone].
      apply decode_uXXXX_consumes in Hdec2 as (h2 & -> & Hh2).
      apply (scans_prefix closes_string closes_string
               ((92 :: 117 :: h) ++ 92 :: 117 :: h2) s5) with
        (r := scanstring_loop fuel begin s5
                (65536 + N.lor (N.shiftl (uni - 55296) 10) (uni2 - 56320)
                 :: acc)) in IH as Htwo.
      * by rewrite <- app_assoc in Htwo.
      * intros t. apply closes_string_after, stays_in_string_app; [done|].
        intros d. rewrite !lex_cons. apply Hh2.
    + destruct (BACKSLASH esc) as [ch|]; [|exact I].
      apply (scans_prefix closes_string closes_string [92; esc]);
        [|apply IH]. intros t. by apply closes_string_after.
  - destruct (c <? 32); [exact I|].
    apply (scans_prefix closes_string closes_string [c]); [|apply IH].
    intros t. apply closes_string_after. intros d.
    nbool. by rewrite lex_cons, lex_step_in_string.
Qed.

Lemma closes_bracket_after (t0 t : pystr) :
  balanced t0 → closes_bracket t → closes_bracket (t0 ++ t).
Proof. intros H0 Ht d. by rewrite lex_app, H0, Ht. Qed.

Lemma balanced_inert (w : pystr) : forallb inert w = true → balanced w.
Proof. intros Hw d. by apply lex_inert. Qed.

Lemma JSONArray_loop_scans (f : pystr → scan pyval) (fuel : nat)
    (s : pystr) (acc : list pyval) :
  (∀ s, scans complete s (f s)) →
  scans closes_bracket s (JSONArray_loop f fuel s acc).
Proof.
  intros Hf. revert s acc.
  induction fuel as [|fuel IH]; intros s acc; [exact I|].
  cbn [JSONArray_loop]. pose proof (Hf s) as Hvalue.
  destruct (f s) as [value s1| | |]; try exact I.
  destruct Hvalue as (t1 & -> & _ & Ht1).
  destruct (skip_ws_consumes s1) as (w & Hw & Hinert%balanced_inert).
  destruct (skip_ws s1) as [|c s2]; [exact I|]. subst s1.
  destruct (c =? 93) eqn:Hclose.
  { nbool. subst c. exists (t1 ++ w ++ [93]).
    split; [by rewrite <- !app_assoc|].
    intros d. by rewrite !lex_app, Ht1, Hinert. }
  destruct (c =? 44) eqn:Hcomma; [|exact I]. nbool. subst c.
  destruct (skip_ws_consumes s2) as (w2 & Hw2 & Hinert2%balanced_inert).
  rewrite Hw2 at 1.
  replace (t1 ++ w ++ 44 :: w2 ++ skip_ws s2)
    with ((t1 ++ w ++ 44 :: w2) ++ skip_ws s2)
    by (by rewrite <- !app_assoc).
  apply (scans_prefix closes_bracket closes_bracket); [|apply IH].
  intros t. apply closes_bracket_after.
  apply balanced_app; [done|]. apply balanced_app; [done|].
  by apply (balanced_app [44]).
Qed.

Lemma JSONArray_scans (f : pystr → scan pyval) (s : pystr) :
  (∀ s, scans complete s (f s)) →
  scans closes_bracket s (JSONArray f s).
Proof.
  intros Hf. unfold JSONArray. generalize (S (length s)). intros fuel.
  destruct (skip_ws_consumes s) as (w & Hw & Hinert%balanced_inert).
  rewrite Hw at 1.
  destruct (skip_ws s) as [|c s1].
  - apply (scans_prefix closes_bracket closes_bracket);
      [|by apply JSONArray_loop_scans].
    intros t. by apply closes_bracket_after.
  - destruct (c =? 93) eqn:Hclose.
    + nbool. subst c. exists (w ++ [93]).
      split; [by rewrite <- app_assoc|].
      intros d. by rewrite lex_app, Hinert.
    + apply (scans_prefix closes_bracket closes_bracket);
        [|by apply JSONArray_loop_scans].
      intros t. by apply closes_bracket_after.
Qed.

(** Keep the one branch of a match on a code point that does not end
    in [Fail]. *)
Ltac only_code c :=
  let p := fresh "p" in
  destruct c as [|p]; [exact I|];
  repeat (destruct p as [p|p|]; try exact I).

Lemma balanced_string (t : pystr) : closes_string t → balanced (34 :: t).
Proof. intros Ht d. rewrite lex_cons. apply Ht. Qed.

Lemma JSONObject_loop_scans (f : pystr → scan pyval) (fuel : nat)
    (s : pystr) (acc : list (pystr * pyval)) :
  (∀ s, scans complete s (f s)) →
  scans closes_bracket s (JSONObject_loop f fuel s acc).
Proof.
  intros Hf. revert s acc.
  induction fuel as [|fuel IH]; intros s acc; [exact I|].
  cbn [JSONObject_loop]. destruct s as [|c s0]; [exact I|].
  only_code c.
  unfold scanstring.
  pose proof (scanstring_loop_scans (S (length s0)) (34 :: s0) s0 [])
    as Hkey.
  destruct (scanstring_loop _ _ s0 []) as [key s1| | |]; try exact I.
  destruct Hkey as (tk & -> & Htk%balanced_string).
  destruct (skip_ws_consumes s1) as (w1 & Hw1 & Hinert1%balanced_inert).
  destruct (skip_ws s1) as [|c s2]; [exact I|]. subst s1.
  only_code c.
  destruct (skip_ws_consumes s2) as (w2 & Hw2 & Hinert2%balanced_inert).
  pose proof (Hf (skip_ws s2)) as Hvalue.
  destruct (f (skip_ws s2)) as [value s3| | |]; try exact I.
  destruct Hvalue as (tv & Hs2 & _ & Htv). rewrite Hs2 in Hw2. subst s2.
  destruct (skip_ws_consumes s3) as (w3 & Hw3 & Hinert3%balanced_inert).
  destruct (skip_ws s3) as [|c s4]; [exact I|]. subst s3.
  assert (balanced ((34 :: tk) ++ w1 ++ [58] ++ w2 ++ tv ++ w3)) as Hpair.
  { repeat (apply balanced_app; [done|]). done. }
  destruct (c =? 125) eqn:Hclose.
  { nbool. subst c.
    exists (((34 :: tk) ++ w1 ++ [58] ++ w2 ++ tv ++ w3) ++ [125]).
    split; [by rewrite <- !app_assoc|].
    intros d. by rewrite lex_app, Hpair. }
  destruct (c =? 44) eqn:Hcomma; [|exact I]. nbool. subst c.
  destruct (skip_ws_consumes s4) as (w4 & Hw4 & Hinert4%balanced_inert).
  rewrite Hw4 at 1.
  replace (34 :: tk ++ w1 ++ 58 :: w2 ++ tv ++ w3 ++ 44 :: w4 ++ skip_ws s4)
    with ((((34 :: tk) ++ w1 ++ [58] ++ w2 ++ tv ++ w3) ++ 44 :: w4)
          ++ skip_ws s4)
    by (by rewrite <- !app_assoc).
  apply (scans_prefix closes_bracket closes_bracket); [|apply IH].
  intros t. apply closes_bracket_after.
  apply balanced_app; [done|]. by apply (balanced_app [44]).
Qed.

Lemma JSONObject_scans (f : pystr → scan pyval) (s : pystr) :
  (∀ s, scans complete s (f s)) →
  scans closes_bracket s (JSONObject f s).
Proof.
  intros Hf. unfold JSONObject. generalize (S (length s)). intros fuel.
  destruct (skip_ws_consumes s) as (w & Hw & Hinert%balanced_inert).
  rewrite Hw at 1.
  destruct (skip_ws s) as [|c s1].
  - apply (scans_prefix closes_bracket closes_bracket);
      [|by apply JSONObject_loop_scans].
    intros t. by apply closes_bracket_after.
  - destruct (c =? 125) eqn:Hclose.
    + nbool. subst c. exists (w ++ [125]).
      split; [by rewrite <- app_assoc|].
      intros d. by rewrite lex_app, Hinert.
    + apply (scans_prefix closes_bracket closes_bracket);
        [|by apply JSONObject_loop_scans].
      intros t. by apply closes_bracket_after.
Qed.

Lemma scans_literal {A} (p s : pystr) (a : A) (r : pystr) :
  strip_prefix p s = Some r → complete p → scans complete s (Scanned a r).
Proof. intros ->%strip_prefix_consumes Hp. by exists p. Qed.

Lemma complete_literals :
  complete (lit "null") ∧ complete (lit "true") ∧ complete (lit "false")
  ∧ complete (lit "NaN") ∧ complete (lit "Infinity")
  ∧ complete (lit "-Infinity").
Proof. repeat split; done. Qed.

Lemma scan_once_scans `{Interpreter} (depth : nat) (s : pystr) :
  scans complete s (scan_once depth s).
Proof.
  revert s. induction depth as [|depth IH]; intros s; [exact I|].
  cbn [scan_once]. destruct s as [|nextchar s']; [exact I|].
  destruct complete_literals as (Hnull & Htrue & Hfalse & Hnan & Hinf & Hninf).
  destruct (nextchar =? 34) eqn:Hquote.
  { nbool. subst nextchar. unfold scanstring.
    pose proof (scanstring_loop_scans (S (length s')) (34 :: s') s' [])
      as Hstr.
    destruct (scanstring_loop _ _ s' []) as [str r| | |]; try exact I.
    destruct Hstr as (t & -> & Ht%balanced_string). by exists (34 :: t). }
  destruct (nextchar =? 123) eqn:Hbrace.
  { nbool. subst nextchar.
    apply (scans_prefix closes_bracket complete [123]);
      [|by apply JSONObject_scans].
    intros t Ht. split; [done|]. intros d. rewrite lex_app. exact (Ht d). }
  destruct (nextchar =? 91) eqn:Hbracket.
  { nbool. subst nextchar.
    apply (scans_prefix closes_bracket complete [91]);
      [|by apply JSONArray_scans].
    intros t Ht. split; [done|]. intros d. rewrite lex_app. exact (Ht d). }
  generalize dependent (nextchar :: s'). intros s.
  destruct (strip_prefix (lit "null") s) eqn:Hn;
    [by eapply scans_literal|].
  destruct (strip_prefix (lit "true") s) eqn:Ht;
    [by eapply scans_literal|].
  destruct (strip_prefix (lit "false") s) eqn:Hf;
    [by eapply scans_literal|].
  destruct (match_number s) as [[[[integer frac] exp] r]|] eqn:Hnumber.
  - apply match_number_consumes in Hnumber as (-> & Hne & Hinert).
    assert (complete (integer ++ or_empty frac ++ or_empty exp)) as Hc.
    { split; [by destruct integer|by apply balanced_inert]. }
    destruct frac, exp; by eexists.
  - destruct (strip_prefix (lit "NaN") s) eqn:Hnan';
      [by eapply scans_literal|].
    destruct (strip_prefix (lit "Infinity") s) eqn:Hinf';
      [by eapply scans_literal|].
    destruct (strip_prefix (lit "-Infinity") s) eqn:Hninf';
      [by eapply scans_literal|].
    exact I.
Qed.

Lemma json_loads_balanced `{Interpreter} (s : pystr) (v : pyval) :
  json_loads s = ok v → s ≠ [] ∧ lex s (Outside, O) = (Outside, O).
Proof.
  unfold json_loads. destruct (strip_prefix [65279] s); [done|].
  destruct (skip_ws_consumes s) as (w & Hw & Hinert%balanced_inert).
  pose proof (scan_once_scans recursion_limit (skip_ws s)) as Hvalue.
  destruct (scan_once recursion_limit (skip_ws s)) as [obj r| | |];
    try done.
  destruct Hvalue as (t & Ht & Hne & Hbal).
  destruct (skip_ws_consumes r) as (w' & Hw' & Hinert'%balanced_inert).
  destruct (skip_ws r); [|done]. intros _.
  rewrite Hw, Ht, Hw'. split.
  - destruct w; [by destruct t|done].
  - by rewrite !lex_app, Hinert, Hbal, Hinert'.
Qed.

(** ** A save that failed leaves a file that does not load *)

Lemma save_to_json_denied `{Interpreter} (obj : pyval) (filename : string)
    (fs : filesystem) :
  denied (save_to_json obj filename fs).1 = denied fs.
Proof.
  unfold save_to_json, open_w.
  destruct (decide (filename ∈ denied fs)); [done|].
  unfold json_dump. by destruct (iterencode recursion_limit obj).
Qed.

Lemma json_load_text `{Interpreter} (filename : string) (fs : filesystem)
    (text : pystr) :
  filename ∉ denied fs → files fs !! filename = Some text →
  json_load filename fs = json_loads text.
Proof.
  intros Hfree Htext. unfold json_load, open_r.
  destruct (decide (filename ∈ denied fs)); [done|]. by rewrite Htext.
Qed.

Lemma iterencode_stopped_text `{Interpreter} (depth : nat) (o : pyval)
    (e : exn) :
  float_repr_numeric →
  (iterencode depth o).2 = Some e →
  (iterencode depth o).1 = [] ∨ unclosed (iterencode depth o).1.
Proof.
  intros Hnum Hstop.
  pose proof (iterencode_emits_value depth o O Hnum) as Hem.
  unfold emits_value in Hem. rewrite Hstop in Hem.
  destruct Hem as (d' & Hlex & [Hnil|Hopen]); [by left|right].
  destruct d' as [|d']; [lia|]. by exists d'.
Qed.

Lemma unclosed_not_loaded `{Interpreter} (w : pystr) :
  w = [] ∨ unclosed w →
  ∃ e, json_loads w = raise e ∧ parse_error e.
Proof.
  intros Hw. destruct (json_loads w) as [e|v] eqn:Hload.
  - exists e. split; [done|]. by apply json_loads_raises with w.
  - apply json_loads_balanced in Hload as [Hne Hbal].
    destruct Hw as [->|[d Hopen]]; [done|]. congruence.
Qed.

(** When [save_to_json] opens the file and then raises, the file it
    leaves is empty or has a bracket or brace that is never closed; this
    text is not valid JSON: the decoder rejects it, and so [load_result]
    and [load_properties] raise the decoder's exception on the file
    without calling a factory. *)
Theorem save_to_json_failed_not_loadable `{Interpreter} `{Qiskit}
    (obj : pyval) (filename : string) (fs : filesystem) (e : exn) :
  filename ∉ denied fs →
  float_repr_numeric →
  (save_to_json obj filename fs).2 = raise e →
  ∃ w e',
    files (save_to_json obj filename fs).1 !! filename = Some w
    ∧ (w = [] ∨ unclosed w)
    ∧ json_loads w = raise e' ∧ parse_error e'
    ∧ load_result filename (save_to_json obj filename fs).1 = raise e'
    ∧ load_properties filename (save_to_json obj filename fs).1 = raise e'.
Proof.
  intros Hfree Hnum Hraise.
  destruct (save_to_json_written obj filename fs Hfree) as [Hw Hr].
  rewrite Hr in Hraise.
  destruct (iterencode recursion_limit obj).2 as [e0|] eqn:Hstop; [|done].
  pose proof (iterencode_stopped_text _ _ _ Hnum Hstop) as Htext.
  destruct (unclosed_not_loaded _ Htext) as (e' & Hload & He').
  exists (iterencode recursion_limit obj).1, e'.
  assert (json_load filename (save_to_json obj filename fs).1 = raise e')
    as Hjson.
  { rewrite (json_load_text _ _ _ ltac:(by rewrite save_to_json_denied) Hw).
    exact Hload. }
  repeat split; try done.
  - unfold load_result. by rewrite Hjson.
  - unfold load_properties. by rewrite Hjson.
Qed.

Lemma example_float_repr_numeric : @float_repr_numeric example_interpreter.
Proof. intros f. simpl. by repeat case_match. Qed.

Lemma save_to_json_failed_not_loadable_witness :
  ∃ w e',
    files (@save_to_json example_interpreter one_and_a_set "a.json"
             (mk_fs ∅ ∅)).1 !! "a.json" = Some w
    ∧ (w = [] ∨ unclosed w)
    ∧ @json_loads example_interpreter w = raise e' ∧ parse_error e'
    ∧ @load_result example_interpreter example_qiskit "a.json"
        (@save_to_json example_interpreter one_and_a_set "a.json"
           (mk_fs ∅ ∅)).1 = raise e'
    ∧ @load_properties example_interpreter example_qiskit "a.json"
        (@save_to_json example_interpreter one_and_a_set "a.json"
           (mk_fs ∅ ∅)).1 = raise e'.
Proof.
  apply (@save_to_json_failed_not_loadable example_interpreter example_qiskit
           one_and_a_set "a.json" (mk_fs ∅ ∅)
           (TypeError_not_serializable (lit "set"))).
  - apply not_elem_of_empty.
  - exact example_float_repr_numeric.
  - reflexivity.
Defined.



(** ** Reading back what the encoder wrote: strings *)

Lemma hex_value_hex_digit (d : N) :
  d < 16 → hex_value (hex_digit d) = Some d.
Proof.
  intros Hd. unfold hex_digit, hex_value, is_digit.
  repeat case_match; nbool; try lia; f_equal; lia.
Qed.

Lemma four_hex_digits (n : N) :
  n < 65536 →
  (((n / 4096 mod 16) * 16 + n / 256 mod 16) * 16 + n / 16 mod 16) * 16
  + n mod 16 = n.
Proof. intros Hn. zify. Z.to_euclidean_division_equations. lia. Qed.

Lemma decode_u_escape (n : N) (tail : pystr) :
  n < 65536 →
  u_escape n ++ tail
  = 92 :: 117 :: hex_digit (n / 4096 mod 16) :: hex_digit (n / 256 mod 16)
    :: hex_digit (n / 16 mod 16) :: hex_digit (n mod 16) :: tail
  ∧ decode_uXXXX
      (hex_digit (n / 4096 mod 16) :: hex_digit (n / 256 mod 16)
       :: hex_digit (n / 16 mod 16) :: hex_digit (n mod 16) :: tail)
    = Some (n, tail).
Proof.
  intros Hn. split; [done|]. unfold decode_uXXXX.
  rewrite !hex_value_hex_digit by (by apply N.mod_lt).
  by rewrite four_hex_digits.
Qed.

Lemma lor_shifted (a b k : N) :
  b < 2 ^ k → N.lor (a * 2 ^ k) b = a * 2 ^ k + b.
Proof.
  intros Hb.
  assert (N.land (a * 2 ^ k) b = 0) as Hland.
  { apply N.bits_inj. intros i. rewrite N.land_spec, N.bits_0.
    destruct (N.lt_ge_cases i k) as [Hlt|Hge].
    - by rewrite N.mul_pow2_bits_low.
    - destruct (N.eq_dec b 0) as [->|Hnz];
        [rewrite N.bits_0; apply andb_false_r|].
      rewrite (N.bits_above_log2 b i), andb_false_r; [done|].
      eapply N.lt_le_trans; [|exact Hge].
      apply N.log2_lt_pow2; [lia|done]. }
  by rewrite N.add_nocarry_lxor, N.lxor_lor.
Qed.

(** The surrogate pair written for a code point above the basic plane,
    and the code point the decoder computes from it. *)
Lemma surrogate_pair (c : N) :
  65536 ≤ c → c < 1114112 →
  let n := c - 65536 in
  let s1 := N.lor 55296 (N.land (N.shiftr n 10) 1023) in
  let s2 := N.lor 56320 (N.land n 1023) in
  (55296 ≤ s1 ∧ s1 ≤ 56319) ∧ (56320 ≤ s2 ∧ s2 ≤ 57343)
  ∧ 65536 + N.lor (N.shiftl (s1 - 55296) 10) (s2 - 56320) = c.
Proof.
  intros Hlo Hhi n s1 s2.
  assert (n < 1048576) as Hn by (unfold n; lia).
  assert (N.land (N.shiftr n 10) 1023 = n / 1024) as Hhigh.
  { change 1023 with (N.ones 10).
    rewrite N.land_ones, N.shiftr_div_pow2. change (2 ^ 10) with 1024.
    apply N.mod_small. zify. Z.to_euclidean_division_equations. lia. }
  assert (N.land n 1023 = n mod 1024) as Hlow.
  { change 1023 with (N.ones 10). by rewrite N.land_ones. }
  assert (n / 1024 < 1024) as Hq
    by (zify; Z.to_euclidean_division_equations; lia).
  assert (n mod 1024 < 1024) as Hr by (by apply N.mod_lt).
  assert (s1 = 55296 + n / 1024) as Hs1.
  { unfold s1. rewrite Hhigh. apply (lor_shifted 54 _ 10). exact Hq. }
  assert (s2 = 56320 + n mod 1024) as Hs2.
  { unfold s2. rewrite Hlow. apply (lor_shifted 55 _ 10). exact Hr. }
  rewrite Hs1, Hs2. repeat split; try lia.
  rewrite N.shiftl_mul_pow2.
  replace (55296 + n / 1024 - 55296) with (n / 1024) by lia.
  replace (56320 + n mod 1024 - 56320) with (n mod 1024) by lia.
  rewrite lor_shifted by exact Hr. change (2 ^ 10) with 1024.
  unfold n in *. zify. Z.to_euclidean_division_equations. lia.
Qed.

Lemma scanstring_loop_plain (fuel : nat) (c : N)
    (begin tail acc : pystr) :
  ESCAPE_ASCII c = false →
  scanstring_loop (S fuel) begin (c :: tail) acc
  = scanstring_loop fuel begin tail (c :: acc).
Proof.
  unfold ESCAPE_ASCII. intros Hc. nbool. cbn [scanstring_loop].
  rewrite (proj2 (N.eqb_neq c 34)), (proj2 (N.eqb_neq c 92)) by done.
  by rewrite (proj2 (N.ltb_ge c 32)).
Qed.

Lemma scanstring_loop_short (fuel : nat) (c : N)
    (r begin tail acc : pystr) :
  ESCAPE_DCT c = Some r →
  scanstring_loop (S fuel) begin (r ++ tail) acc
  = scanstring_loop fuel begin tail (c :: acc).
Proof.
  unfold ESCAPE_DCT.
  repeat case_match; try done; intros [= <-]; nbool; by subst.
Qed.

Lemma decode_escape_u_escape (n : N) (tail : pystr) :
  n < 65536 → tail ≠ [] →
  u_escape n ++ tail
  = 92 :: 117 :: hex_digit (n / 4096 mod 16) :: hex_digit (n / 256 mod 16)
    :: hex_digit (n / 16 mod 16) :: hex_digit (n mod 16) :: tail
  ∧ decode_escape
      (hex_digit (n / 4096 mod 16) :: hex_digit (n / 256 mod 16)
       :: hex_digit (n / 16 mod 16) :: hex_digit (n mod 16) :: tail)
    = Some (n, tail).
Proof.
  intros Hn Htail. destruct (decode_u_escape n tail Hn) as [Htext Hdecode].
  split; [done|]. unfold decode_escape. rewrite Hdecode.
  by destruct tail.
Qed.

Lemma scanstring_loop_u (fuel : nat) (c : N) (begin tail acc : pystr) :
  c < 65536 → scalar c = true → tail ≠ [] →
  scanstring_loop (S fuel) begin (u_escape c ++ tail) acc
  = scanstring_loop fuel begin tail (c :: acc).
Proof.
  intros Hc Hscalar Htail.
  destruct (decode_escape_u_escape c tail Hc Htail) as [-> Hdecode].
  cbn [scanstring_loop].
  change (92 =? 34) with false. change (92 =? 92) with true.
  change (117 =? 117) with true. cbv iota. rewrite Hdecode.
  replace ((55296 <=? c) && (c <=? 56319)) with false; [done|].
  unfold scalar in Hscalar. symmetry. apply andb_false_iff.
  nbool; [left|right]; apply N.leb_gt; lia.
Qed.

Lemma scanstring_loop_pair (fuel : nat) (c : N) (begin tail acc : pystr) :
  65536 ≤ c → scalar c = true → tail ≠ [] →
  scanstring_loop (S fuel) begin (replace c ++ tail) acc
  = scanstring_loop fuel begin tail (c :: acc).
Proof.
  intros Hc Hscalar Htail.
  assert (c < 1114112) as Hmax by (unfold scalar in Hscalar; nbool; lia).
  unfold replace.
  replace (ESCAPE_DCT c) with (@None pystr)
    by (unfold ESCAPE_DCT; repeat case_match; nbool; try done; lia).
  rewrite (proj2 (N.ltb_ge c 65536)) by done.
  destruct (surrogate_pair c Hc Hmax) as ((Hlo1 & Hhi1) & (Hlo2 & Hhi2) & Hc').
  cbv zeta in Hlo1, Hhi1, Hlo2, Hhi2, Hc'.
  set (s1 := N.lor 55296 (N.land (N.shiftr (c - 65536) 10) 1023)) in *.
  set (s2 := N.lor 56320 (N.land (c - 65536) 1023)) in *.
  rewrite <- app_assoc.
  destruct (decode_escape_u_escape s1 (u_escape s2 ++ tail))
    as [-> Hdecode1]; [lia|done|].
  destruct (decode_u_escape s2 tail) as [Hsecond Hdecode2]; [lia|].
  cbn [scanstring_loop].
  change (92 =? 34) with false. change (92 =? 92) with true.
  change (117 =? 117) with true. cbv iota. rewrite Hdecode1.
  rewrite (proj2 (N.leb_le 55296 s1)), (proj2 (N.leb_le s1 56319)) by done.
  replace (6 <? length (u_escape s2 ++ tail))%nat with true
    by (symmetry; apply Nat.ltb_lt; rewrite length_app; simpl;
        destruct tail; [done|simpl; lia]).
  cbn [andb]. rewrite Hsecond. cbn [strip_prefix].
  change (92 =? 92) with true. change (117 =? 117) with true. cbv iota.
  rewrite Hdecode2.
  rewrite (proj2 (N.leb_le 56320 s2)), (proj2 (N.leb_le s2 57343)) by done.
  cbn [andb]. by rewrite Hc'.
Qed.

Lemma scanstring_loop_char (fuel : nat) (c : N) (begin tail acc : pystr) :
  scalar c = true → tail ≠ [] →
  scanstring_loop (S fuel) begin
    ((if ESCAPE_ASCII c then replace c else [c]) ++ tail) acc
  = scanstring_loop fuel begin tail (c :: acc).
Proof.
  intros Hscalar Htail. destruct (ESCAPE_ASCII c) eqn:Hesc.
  - destruct (ESCAPE_DCT c) as [r|] eqn:Hshort.
    + unfold replace. rewrite Hshort. by apply scanstring_loop_short.
    + destruct (N.lt_ge_cases c 65536) as [Hlt|Hge].
      * unfold replace. rewrite Hshort, (proj2 (N.ltb_lt c 65536)) by done.
        by apply scanstring_loop_u.
      * by apply scanstring_loop_pair.
  - by apply scanstring_loop_plain.
Qed.

Lemma scanstring_loop_encoded (s : pystr) (fuel : nat)
    (begin rest acc : pystr) :
  forallb scalar s = true →
  (length s < fuel)%nat →
  scanstring_loop fuel begin
    (concat ((λ c, if ESCAPE_ASCII c then replace c else [c]) <$> s)
     ++ 34 :: rest) acc
  = Scanned (reverse acc ++ s) rest.
Proof.
  revert fuel acc. induction s as [|c s IH]; intros fuel acc Hs Hfuel.
  - destruct fuel as [|fuel]; [simpl in Hfuel; lia|].
    simpl. by rewrite app_nil_r.
  - destruct fuel as [|fuel]; [simpl in Hfuel; lia|].
    simpl in Hs. apply andb_prop in Hs as [Hc Hs].
    rewrite fmap_cons. cbn [concat]. rewrite <- app_assoc.
    rewrite scanstring_loop_char; [|done|by intros [? ?]%app_eq_nil].
    rewrite IH by (simpl in Hfuel; done || lia).
    by rewrite reverse_cons, <- app_assoc.
Qed.

Lemma escaped_length (s : pystr) :
  (length s
   ≤ length (concat ((λ c, if ESCAPE_ASCII c then replace c else [c])
                     <$> s)))%nat.
Proof.
  induction s as [|c s IH]; [done|].
  rewrite fmap_cons. cbn [concat length]. rewrite length_app.
  destruct (ESCAPE_ASCII c); [|simpl; lia].
  assert (1 ≤ length (replace c))%nat; [|lia].
  unfold replace, ESCAPE_DCT. repeat case_match; simplify_eq; simpl; lia.
Qed.

Lemma scanstring_encoded (s rest : pystr) :
  forallb scalar s = true →
  ∃ body, encode_basestring_ascii s ++ rest = 34 :: body
          ∧ scanstring body = Scanned s rest.
Proof.
  intros Hs. eexists. split.
  - unfold encode_basestring_ascii. rewrite <- !app_assoc. reflexivity.
  - unfold scanstring. apply (scanstring_loop_encoded s _ _ rest []); [done|].
    rewrite length_app. pose proof (escaped_length s). simpl. lia.
Qed.

(** ** Reading back what the encoder wrote: numbers *)

Lemma delimited_head (rest : pystr) :
  delimited rest = true →
  match rest with
  | [] => True
  | c :: _ => is_digit c = false ∧ c ≠ 46 ∧ c ≠ 101 ∧ c ≠ 69
              ∧ c ≠ 43 ∧ c ≠ 45 ∧ is_ws c = false
  end.
Proof.
  destruct rest as [|c rest]; [done|]. simpl. intros Hc.
  unfold is_digit, is_ws. nbool; subst; done.
Qed.

Lemma span_digits_app (s ds r rest : pystr) :
  span_digits s = (ds, r) → delimited rest = true →
  span_digits (s ++ rest) = (ds, r ++ rest).
Proof.
  intros Hs Hrest. revert ds r Hs.
  induction s as [|c s IH]; intros ds r; simpl.
  - intros [= <- <-]. apply delimited_head in Hrest.
    destruct rest as [|c rest]; [done|]. simpl.
    by destruct Hrest as [-> _].
  - destruct (is_digit c); [|by intros [= <- <-]].
    destruct (span_digits s) as [ds' r']. rewrite (IH ds' r' eq_refl).
    by intros [= <- <-].
Qed.

Lemma match_integer_app (s i r rest : pystr) :
  match_integer s = Some (i, r) → delimited rest = true →
  match_integer (s ++ rest) = Some (i, r ++ rest).
Proof.
  rewrite !match_integer_eq. intros Hs Hrest.
  destruct s as [|c s]; [done|]. cbn [app].
  assert (∀ sign s,
    match s with
    | c :: s2 =>
        if c =? 48 then Some (sign ++ [48], s2)
        else if is_digit c then
          let '(ds, r) := span_digits s2 in Some (sign ++ c :: ds, r)
        else None
    | [] => None
    end = Some (i, r) →
    match s ++ rest with
    | c :: s2 =>
        if c =? 48 then Some (sign ++ [48], s2)
        else if is_digit c then
          let '(ds, r) := span_digits s2 in Some (sign ++ c :: ds, r)
        else None
    | [] => None
    end = Some (i, r ++ rest)) as Hunsigned.
  { intros sign [|d s0]; [done|]. cbn [app].
    destruct (d =? 48); [by intros [= <- <-]|].
    destruct (is_digit d); [|done].
    destruct (span_digits s0) as [ds r'] eqn:Hsp.
    rewrite (span_digits_app s0 ds r' rest Hsp Hrest).
    by intros [= <- <-]. }
  destruct (c =? 45).
  - by apply Hunsigned.
  - by apply (Hunsigned [] (c :: s)).
Qed.

Lemma match_frac_app (s r rest : pystr) (frac : option pystr) :
  match_frac s = (frac, r) → delimited rest = true →
  match_frac (s ++ rest) = (frac, r ++ rest).
Proof.
  unfold match_frac. rewrite !match_head_46. intros Hs Hrest.
  pose proof (delimited_head rest Hrest) as Hhead.
  destruct s as [|c s].
  - injection Hs as <- <-. destruct rest as [|c rest]; [done|]. simpl.
    destruct Hhead as (_ & Hc & _). by rewrite (proj2 (N.eqb_neq c 46)).
  - cbn [app]. destruct (c =? 46); [|by injection Hs as <- <-].
    destruct (span_digits s) as [ds r'] eqn:Hsp.
    rewrite (span_digits_app s ds r' rest Hsp Hrest).
    destruct ds; by injection Hs as <- <-.
Qed.

Lemma match_exp_app (s r rest : pystr) (exp : option pystr) :
  match_exp s = (exp, r) → delimited rest = true →
  match_exp (s ++ rest) = (exp, r ++ rest).
Proof.
  unfold match_exp. intros Hs Hrest.
  pose proof (delimited_head rest Hrest) as Hhead.
  destruct s as [|c s].
  - injection Hs as <- <-. destruct rest as [|c rest]; [done|]. simpl.
    destruct Hhead as (_ & _ & He & HE & _).
    by rewrite (proj2 (N.eqb_neq c 101)), (proj2 (N.eqb_neq c 69)).
  - cbn [app]. destruct ((c =? 101) || (c =? 69));
      [|by injection Hs as <- <-].
    destruct s as [|d s].
    + cbn [app]. simpl in Hs. injection Hs as <- <-.
      destruct rest as [|d rest]; [done|].
      destruct Hhead as (Hdigit & _ & _ & _ & Hplus & Hminus & _).
      rewrite (proj2 (N.eqb_neq d 43)), (proj2 (N.eqb_neq d 45)) by done.
      simpl. by rewrite Hdigit.
    + cbn [app]. destruct ((d =? 43) || (d =? 45)).
      * destruct (span_digits s) as [ds r'] eqn:Hsp.
        rewrite (span_digits_app s ds r' rest Hsp Hrest).
        destruct ds; by injection Hs as <- <-.
      * destruct (span_digits (d :: s)) as [ds r'] eqn:Hsp.
        change (d :: s ++ rest) with ((d :: s) ++ rest).
        rewrite (span_digits_app (d :: s) ds r' rest Hsp Hrest).
        destruct ds; by injection Hs as <- <-.
Qed.

Lemma match_number_app (s integer r rest : pystr)
    (frac exp : option pystr) :
  match_number s = Some (integer, frac, exp, r) →
  delimited rest = true →
  match_number (s ++ rest) = Some (integer, frac, exp, r ++ rest).
Proof.
  unfold match_number. intros Hs Hrest.
  destruct (match_integer s) as [[i s1]|] eqn:Hi; [|done].
  rewrite (match_integer_app s i s1 rest Hi Hrest).
  destruct (match_frac s1) as [f s2] eqn:Hf.
  rewrite (match_frac_app s1 s2 rest f Hf Hrest).
  destruct (match_exp s2) as [e s3] eqn:He.
  rewrite (match_exp_app s2 s3 rest e He Hrest).
  by injection Hs as <- <- <- <-.
Qed.

Lemma chars_uint_uint_chars (u : Decimal.uint) :
  chars_uint (uint_chars u) = u.
Proof.
  unfold chars_uint. induction u; simpl; [done|..];
    unfold digit_cons at 1; simpl; by f_equal.
Qed.

Lemma uint_chars_digits (u : Decimal.uint) :
  forallb is_digit (uint_chars u) = true.
Proof. induction u; simpl; auto. Qed.

Lemma span_digits_uint_chars (u : Decimal.uint) (rest : pystr) :
  delimited rest = true →
  span_digits (uint_chars u ++ rest) = (uint_chars u, rest).
Proof.
  intros Hrest.
  assert (span_digits (uint_chars u) = (uint_chars u, [])) as Hu.
  { induction u; simpl; [done|..]; by rewrite IHu. }
  apply (span_digits_app _ _ _ rest Hu Hrest).
Qed.

Lemma to_uint_leading (p : positive) (u : Decimal.uint) :
  Pos.to_uint p ≠ D0 u.
Proof.
  intros Hp.
  pose proof (DecimalZ.to_of (Z.to_int (Z.pos p))) as Hnorm.
  rewrite DecimalZ.of_to in Hnorm. simpl in Hnorm. rewrite Hp in Hnorm.
  injection Hnorm as Hnorm. unfold unorm in Hnorm.
  rewrite DecimalFacts.nzhead_D0 in Hnorm.
  destruct (nzhead u) eqn:Hu; try done.
  - injection Hnorm as ->.
    by apply (DecimalPos.Unsigned.to_uint_nonzero p).
  - by apply (DecimalFacts.nzhead_nonzero u u0).
Qed.

Lemma match_integer_unsigned_text (u : Decimal.uint) (rest : pystr) :
  u = Decimal.zero ∨ (u ≠ Nil ∧ ∀ u', u ≠ D0 u') →
  delimited rest = true →
  match_integer (uint_chars u ++ rest) = Some (uint_chars u, rest)
  ∧ match_integer (45 :: uint_chars u ++ rest)
    = Some (45 :: uint_chars u, rest).
Proof.
  intros Hu Hrest. rewrite !match_integer_eq.
  destruct Hu as [->|[Hnil Hlead]]; [done|].
  destruct u as [|u|u|u|u|u|u|u|u|u|u]; try done;
    [by destruct (Hlead u)|..];
    simpl; by rewrite span_digits_uint_chars.
Qed.

Lemma to_int_text (z : Z) :
  match Z.to_int z with
  | Pos u | Neg u => u = Decimal.zero ∨ (u ≠ Nil ∧ ∀ u', u ≠ D0 u')
  end.
Proof.
  destruct z as [|p|p]; simpl; [by left|right..];
    (split; [apply DecimalPos.Unsigned.to_uint_nonnil
            |apply to_uint_leading]).
Qed.

Lemma match_number_int_repr (z : Z) (rest : pystr) :
  delimited rest = true →
  match_number (int_repr z ++ rest) = Some (int_repr z, None, None, rest).
Proof.
  intros Hrest. unfold match_number, int_repr.
  pose proof (to_int_text z) as Hu.
  assert (match_frac rest = (None, rest)) as Hfrac
    by apply (match_frac_app [] [] rest None eq_refl Hrest).
  assert (match_exp rest = (None, rest)) as Hexp
    by apply (match_exp_app [] [] rest None eq_refl Hrest).
  destruct (Z.to_int z) as [u|u];
    destruct (match_integer_unsigned_text u rest Hu Hrest) as [Hpos Hneg].
  - by rewrite Hpos, Hfrac, Hexp.
  - cbn [app]. by rewrite Hneg, Hfrac, Hexp.
Qed.

Lemma parse_int_int_repr (z : Z) : parse_int (int_repr z) = z.
Proof.
  rewrite <- (DecimalZ.of_to z) at 2. unfold parse_int, int_repr.
  destruct (Z.to_int z) as [u|u].
  - rewrite match_head_45.
    destruct u; simpl; try done; by rewrite ?chars_uint_uint_chars.
  - by rewrite chars_uint_uint_chars.
Qed.

Lemma match_integer_head (s i r : pystr) :
  match_integer s = Some (i, r) →
  ∃ c i', i = c :: i' ∧ (c = 45 ∨ is_digit c = true).
Proof.
  rewrite match_integer_eq. destruct s as [|c s]; [done|].
  destruct (c =? 45) eqn:Hc.
  - nbool. subst c. destruct s as [|d s]; [done|].
    destruct (d =? 48); [intros [= <- <-]; eexists _, _; eauto|].
    destruct (is_digit d); [|done]. destruct (span_digits s).
    intros [= <- <-]. eexists _, _; eauto.
  - destruct (c =? 48) eqn:H0.
    + nbool. subst c. intros [= <- <-]. eexists _, _; eauto.
    + destruct (is_digit c) eqn:Hd; [|done]. destruct (span_digits s).
      intros [= <- <-]. eexists _, _; eauto.
Qed.

Lemma match_number_head (s integer r : pystr) (frac exp : option pystr) :
  match_number s = Some (integer, frac, exp, r) →
  ∃ c t, s = c :: t ∧ (c = 45 ∨ is_digit c = true).
Proof.
  intros Hs.
  destruct (match_number_consumes _ _ _ _ _ Hs) as (-> & _ & _).
  unfold match_number in Hs.
  destruct (match_integer _) as [[i s1]|] eqn:Hi; [|done].
  destruct (match_frac s1) as [f s2]. destruct (match_exp s2) as [e s3].
  injection Hs as Hint _ _ _. subst i.
  apply match_integer_head in Hi as (c & i' & -> & Hc).
  by eexists _, _.
Qed.

Lemma number_head_start (c : N) :
  c = 45 ∨ is_digit c = true → value_start c = true.
Proof.
  unfold value_start. intros [Hc|Hc]; rewrite Hc; [done|].
  by rewrite !orb_true_r.
Qed.

Lemma strip_prefix_head (a c : N) (p t : pystr) :
  a ≠ c → strip_prefix (a :: p) (c :: t) = None.
Proof. intros Hac. simpl. by rewrite (proj2 (N.eqb_neq a c)). Qed.

Lemma scan_once_number `{Interpreter} (depth : nat) (s integer r : pystr)
    (frac exp : option pystr) :
  match_number s = Some (integer, frac, exp, r) →
  scan_once (S depth) s
  = Scanned
      (match frac, exp with
       | None, None => PInt (parse_int integer)
       | _, _ =>
           PFloat (parse_float (integer ++ or_empty frac ++ or_empty exp))
       end) r.
Proof.
  intros Hs.
  destruct (match_number_head _ _ _ _ _ Hs) as (c & t & -> & Hc).
  assert (c ≠ 34 ∧ c ≠ 123 ∧ c ≠ 91 ∧ 110 ≠ c ∧ 116 ≠ c ∧ 102 ≠ c)
    as (H34 & H123 & H91 & Hn & Ht & Hf).
  { destruct Hc as [->|Hc]; [done|]. unfold is_digit in Hc. nbool.
    repeat split; lia. }
  cbn [scan_once].
  rewrite (proj2 (N.eqb_neq c 34)), (proj2 (N.eqb_neq c 123)),
    (proj2 (N.eqb_neq c 91)) by done.
  change (lit "null") with (110 :: lit "ull").
  change (lit "true") with (116 :: lit "rue").
  change (lit "false") with (102 :: lit "alse").
  rewrite !strip_prefix_head by done. rewrite Hs.
  by destruct frac, exp.
Qed.

Lemma scan_once_int `{Interpreter} (depth : nat) (z : Z) (rest : pystr) :
  delimited rest = true →
  scan_once (S depth) (int_repr z ++ rest) = Scanned (PInt z) rest
  ∧ starts_value (int_repr z).
Proof.
  intros Hrest. split.
  - rewrite (scan_once_number depth _ _ _ _ _
               (match_number_int_repr z rest Hrest)).
    by rewrite parse_int_int_repr.
  - pose proof (match_number_int_repr z [] eq_refl) as Hz.
    rewrite app_nil_r in Hz.
    apply match_number_head in Hz as (c & t & -> & Hc).
    exists c, t. split; [done|]. by apply number_head_start.
Qed.

Lemma scan_once_float `{Interpreter} (depth : nat) (f : spec_float)
    (rest : pystr) :
  float_round_trips f = true →
  delimited rest = true →
  scan_once (S depth) (floatstr f ++ rest) = Scanned (PFloat f) rest
  ∧ starts_value (floatstr f).
Proof.
  intros Hf Hrest.
  assert (∀ g, float_repr g = floatstr g →
               (match match_number (float_repr g) with
                | Some (_, None, None, _) => false
                | Some (_, _, _, []) =>
                    bool_decide (parse_float (float_repr g) = g)
                | _ => false
                end = true) →
               scan_once (S depth) (floatstr g ++ rest)
               = Scanned (PFloat g) rest
               ∧ starts_value (floatstr g)) as Hfinite.
  { intros g <- Hg.
    destruct (match_number (float_repr g))
      as [[[[integer frac] exp] r]|] eqn:Hnumber; [|done].
    assert (r = [] ∧ parse_float (float_repr g) = g
            ∧ (frac ≠ None ∨ exp ≠ None)) as (-> & Hparse & Hpart).
    { destruct frac, exp, r; try done;
        apply bool_decide_eq_true in Hg; eauto. }
    destruct (match_number_consumes _ _ _ _ _ Hnumber) as (Htext & _ & _).
    rewrite app_nil_r in Htext. split.
    - rewrite (scan_once_number depth _ _ _ _ _
                 (match_number_app _ _ _ rest _ _ Hnumber Hrest)).
      rewrite <- Htext, Hparse. by destruct frac, exp, Hpart.
    - apply match_number_head in Hnumber as (c & t & -> & Hc).
      exists c, t. split; [done|]. by apply number_head_start. }
  destruct f as [s|[]| |s m e].
  - by apply Hfinite.
  - split; [done|]. by eexists _, _.
  - split; [done|]. by eexists _, _.
  - split; [done|]. by eexists _, _.
  - by apply Hfinite.
Qed.

Lemma scan_once_str `{Interpreter} (depth : nat) (s rest : pystr) :
  forallb scalar s = true →
  scan_once (S depth) (encode_basestring_ascii s ++ rest)
  = Scanned (PStr s) rest
  ∧ starts_value (encode_basestring_ascii s).
Proof.
  intros Hs. split; [|by eexists _, _].
  destruct (scanstring_encoded s rest Hs) as (body & -> & Hbody).
  cbn [scan_once]. change (34 =? 34) with true. cbv iota.
  by rewrite Hbody.
Qed.

(** ** Reading back what the encoder wrote: lists *)

Lemma value_start_not_ws (c : N) :
  value_start c = true → is_ws c = false ∧ c ≠ 93 ∧ c ≠ 125.
Proof.
  unfold value_start, is_ws, is_digit. intros Hc.
  nbool; subst; try done; repeat split; try lia;
    repeat (apply orb_false_intro); apply N.eqb_neq; lia.
Qed.

Lemma skip_ws_value (t r : pystr) :
  starts_value t → skip_ws (t ++ r) = t ++ r.
Proof.
  intros (c & t' & -> & [Hc _]%value_start_not_ws). simpl. by rewrite Hc.
Qed.

Lemma iterencode_values_text (rec : pyval → emitted) (first : bool)
    (v : pyval) (lst : list pyval) :
  (rec v).2 = None →
  (iterencode_values rec first (v :: lst)).1
  = (if first then lit "[" else lit ", ") ++ (rec v).1
    ++ (iterencode_values rec false lst).1.
Proof.
  intros Hv. cbn [iterencode_values].
  rewrite andthen_text_ok by (by rewrite andthen_stopped).
  rewrite andthen_text_ok by done. by rewrite <- app_assoc.
Qed.

Lemma iterencode_values_delimited (rec : pyval → emitted)
    (lst : list pyval) (rest : pystr) :
  Forall (λ v, (rec v).2 = None) lst →
  delimited ((iterencode_values rec false lst).1 ++ 93 :: rest) = true.
Proof.
  intros [|v l Hv _]; [done|]. by rewrite iterencode_values_text.
Qed.

Lemma iterencode_values_length (rec : pyval → emitted)
    (lst : list pyval) :
  Forall (λ v, (rec v).2 = None) lst →
  (length lst ≤ length (iterencode_values rec false lst).1)%nat.
Proof.
  induction 1 as [|v l Hv _ IH]; [done|].
  rewrite iterencode_values_text by done.
  rewrite !length_app. simpl. lia.
Qed.

Lemma reads_back_ok (rec : pyval → emitted) (f : pystr → scan pyval)
    (lst js : list pyval) :
  Forall2 (reads_back rec f) lst js →
  Forall (λ v, (rec v).2 = None) lst.
Proof. induction 1 as [|v j l js [Hv _] _ IH]; by constructor. Qed.

Lemma JSONArray_loop_values (rec : pyval → emitted)
    (f : pystr → scan pyval) (lst js : list pyval) (rest : pystr) :
  Forall2 (reads_back rec f) lst js →
  ∀ v j fuel acc,
    reads_back rec f v j →
    (length lst < fuel)%nat →
    JSONArray_loop f fuel
      ((rec v).1 ++ (iterencode_values rec false lst).1 ++ 93 :: rest) acc
    = Scanned (PList (reverse acc ++ j :: js)) rest.
Proof.
  induction 1 as [|v' j' l js' Hv' Hl IH];
    intros v j fuel acc (Hok & Hstart & Hread) Hfuel;
    (destruct fuel as [|fuel]; [simpl in Hfuel; lia|]);
    cbn [JSONArray_loop].
  - rewrite Hread by done. simpl. by rewrite reverse_cons.
  - pose proof (reads_back_ok _ _ _ _ Hl) as Hoks.
    destruct Hv' as (Hok' & Hstart' & Hread').
    rewrite Hread
      by (apply (iterencode_values_delimited rec (v' :: l));
          by constructor).
    rewrite iterencode_values_text by done.
    rewrite <- !app_assoc. simpl.
    rewrite skip_ws_value by done.
    rewrite (IH v' j' fuel (j :: acc)); [|done|simpl in Hfuel; lia].
    by rewrite reverse_cons, <- app_assoc.
Qed.

Lemma JSONArray_encoded (rec : pyval → emitted) (f : pystr → scan pyval)
    (lst js : list pyval) (rest : pystr) :
  Forall2 (reads_back rec f) lst js →
  (iterencode_list rec lst).2 = None
  ∧ ∃ body, (iterencode_list rec lst).1 ++ rest = 91 :: body
            ∧ JSONArray f body = Scanned (PList js) rest.
Proof.
  intros Hlst. pose proof (reads_back_ok _ _ _ _ Hlst) as Hoks. split.
  { rewrite iterencode_list_stopped_eq. by apply iterencode_values_ok. }
  destruct Hlst as [|v j l js' Hv Hl].
  { exists (93 :: rest). split; [done|]. reflexivity. }
  pose proof Hv as (Hok & Hstart & Hread).
  inversion Hoks as [|? ? _ Hoks']; subst.
  exists ((rec v).1 ++ (iterencode_values rec false l).1 ++ 93 :: rest).
  split.
  { unfold iterencode_list.
    rewrite andthen_text_ok by (by apply iterencode_values_ok).
    rewrite iterencode_values_text by done. simpl.
    by rewrite <- !app_assoc. }
  unfold JSONArray. rewrite skip_ws_value by done.
  destruct Hstart as (c & t & Ht & (_ & Hc & _)%value_start_not_ws).
  rewrite Ht at 1. cbn [app].
  rewrite (proj2 (N.eqb_neq c 93)) by done.
  change (c :: t ++ ?x) with ((c :: t) ++ x). rewrite <- Ht.
  apply (JSONArray_loop_values rec f l js' rest Hl v j); [done|].
  rewrite !length_app.
  pose proof (iterencode_values_length rec l Hoks'). lia.
Qed.

(** ** Reading back what the encoder wrote: dictionaries *)

Lemma iterencode_items_text `{Interpreter} (rec : pyval → emitted)
    (first : bool) (k v : pyval) (key : pystr)
    (items : list (pyval * pyval)) :
  key_text k = inr key → (rec v).2 = None →
  (iterencode_items rec first ((k, v) :: items)).1
  = (if first then [] else lit ", ") ++ encode_basestring_ascii key
    ++ lit ": " ++ (rec v).1 ++ (iterencode_items rec false items).1.
Proof.
  intros Hk Hv. cbn [iterencode_items]. rewrite Hk.
  rewrite andthen_text_ok by (by rewrite !andthen_stopped).
  rewrite andthen_text_ok by done.
  rewrite andthen_text_ok by done.
  rewrite andthen_text_ok by done.
  cbn [yield fst]. by rewrite <- !app_assoc.
Qed.

Lemma item_reads_back_ok `{Interpreter} (rec : pyval → emitted)
    (f : pystr → scan pyval) (items : list (pyval * pyval))
    (pairs : list (pystr * pyval)) :
  Forall2 (item_reads_back rec f) items pairs →
  Forall (λ kv, key_typed kv.1 = true ∧ (rec kv.2).2 = None) items.
Proof.
  induction 1 as [|[k v] [key j] l ps (Hk & _ & Hv & _) _ IH];
    constructor; [|done].
  split; [|done]. simpl in *. by destruct k.
Qed.

Lemma iterencode_items_delimited `{Interpreter} (rec : pyval → emitted)
    (f : pystr → scan pyval) (items : list (pyval * pyval))
    (pairs : list (pystr * pyval)) (rest : pystr) :
  Forall2 (item_reads_back rec f) items pairs →
  delimited ((iterencode_items rec false items).1 ++ 125 :: rest) = true.
Proof.
  intros [|[k v] [key j] l ps (Hk & _ & Hv & _) _]; [done|].
  by rewrite (iterencode_items_text rec false k v key).
Qed.

Lemma iterencode_items_length `{Interpreter} (rec : pyval → emitted)
    (f : pystr → scan pyval) (items : list (pyval * pyval))
    (pairs : list (pystr * pyval)) :
  Forall2 (item_reads_back rec f) items pairs →
  (length items ≤ length (iterencode_items rec false items).1)%nat.
Proof.
  induction 1 as [|[k v] [key j] l ps (Hk & _ & Hv & _) _ IH]; [done|].
  rewrite (iterencode_items_text rec false k v key) by done.
  rewrite !length_app. simpl. lia.
Qed.

Lemma JSONObject_loop_items `{Interpreter} (rec : pyval → emitted)
    (f : pystr → scan pyval) (items : list (pyval * pyval))
    (pairs : list (pystr * pyval)) (rest : pystr) :
  Forall2 (item_reads_back rec f) items pairs →
  ∀ k v key j fuel acc,
    item_reads_back rec f (k, v) (key, j) →
    (length items < fuel)%nat →
    JSONObject_loop f fuel
      (encode_basestring_ascii key ++ lit ": " ++ (rec v).1
       ++ (iterencode_items rec false items).1 ++ 125 :: rest) acc
    = Scanned (PDict (dict_of_pairs (reverse acc ++ (key, j) :: pairs)))
        rest.
Proof.
  induction 1 as [|[k' v'] [key' j'] l ps Hitem Hl IH];
    intros k v key j fuel acc (Hk & Hkey & Hok & Hstart & Hread) Hfuel;
    simpl in Hk, Hkey, Hok, Hstart, Hread;
    (destruct fuel as [|fuel]; [simpl in Hfuel; lia|]).
  - destruct (scanstring_encoded key
                (lit ": " ++ (rec v).1
                 ++ (iterencode_items rec false []).1 ++ 125 :: rest) Hkey)
      as (body & Hbody & Hscan).
    rewrite Hbody. cbn [JSONObject_loop]. rewrite Hscan.
    change (skip_ws (lit ": " ++ ?x)) with (58 :: 32 :: x). cbv iota.
    change (skip_ws (32 :: ?x)) with (skip_ws x).
    rewrite skip_ws_value by done. rewrite Hread by done.
    simpl. by rewrite reverse_cons.
  - destruct (scanstring_encoded key
                (lit ": " ++ (rec v).1
                 ++ (iterencode_items rec false ((k', v') :: l)).1
                 ++ 125 :: rest) Hkey)
      as (body & Hbody & Hscan).
    rewrite Hbody. cbn [JSONObject_loop]. rewrite Hscan.
    change (skip_ws (lit ": " ++ ?x)) with (58 :: 32 :: x). cbv iota.
    change (skip_ws (32 :: ?x)) with (skip_ws x).
    rewrite skip_ws_value by done.
    rewrite Hread
      by (by apply (iterencode_items_delimited rec f ((k', v') :: l)
                      ((key', j') :: ps)); constructor).
    pose proof Hitem as (Hk' & Hkey' & Hok' & Hstart' & Hread').
    simpl in Hk', Hkey', Hok', Hstart', Hread'.
    rewrite (iterencode_items_text rec false k' v' key') by done.
    rewrite <- !app_assoc.
    change (skip_ws ((lit ", " ++ ?x))) with (skip_ws (44 :: 32 :: x)).
    change (skip_ws (44 :: 32 :: ?x)) with (44 :: 32 :: x). cbv iota.
    change (44 =? 125) with false. change (44 =? 44) with true. cbv iota.
    change (skip_ws (32 :: ?x)) with (skip_ws x).
    rewrite (skip_ws_value (encode_basestring_ascii key'))
      by (by eexists _, _).
    rewrite (IH k' v' key' j' fuel ((key, j) :: acc));
      [|done|simpl in Hfuel; lia].
    by rewrite reverse_cons, <- app_assoc.
Qed.

Lemma JSONObject_encoded `{Interpreter} (rec : pyval → emitted)
    (f : pystr → scan pyval) (items : list (pyval * pyval))
    (pairs : list (pystr * pyval)) (rest : pystr) :
  Forall2 (item_reads_back rec f) items pairs →
  (iterencode_dict rec items).2 = None
  ∧ ∃ body, (iterencode_dict rec items).1 ++ rest = 123 :: body
            ∧ JSONObject f body
              = Scanned (PDict (dict_of_pairs pairs)) rest.
Proof.
  intros Hitems. pose proof (item_reads_back_ok _ _ _ _ Hitems) as Hoks.
  split.
  { rewrite iterencode_dict_stopped_eq. by apply iterencode_items_ok. }
  destruct Hitems as [|[k v] [key j] l ps Hitem Hl].
  { exists (125 :: rest). split; [done|]. reflexivity. }
  pose proof Hitem as (Hk & Hkey & Hok & Hstart & Hread).
  simpl in Hk, Hkey, Hok, Hstart, Hread.
  exists (encode_basestring_ascii key ++ lit ": " ++ (rec v).1
          ++ (iterencode_items rec false l).1 ++ 125 :: rest).
  split.
  { unfold iterencode_dict.
    rewrite andthen_text_ok
      by (rewrite andthen_stopped; by apply iterencode_items_ok).
    rewrite andthen_text_ok by done.
    rewrite (iterencode_items_text rec true k v key) by done.
    cbn [yield fst]. by rewrite <- !app_assoc. }
  unfold JSONObject.
  rewrite (skip_ws_value (encode_basestring_ascii key))
    by (by eexists _, _).
  set (tail := lit ": " ++ (rec v).1
               ++ (iterencode_items rec false l).1 ++ 125 :: rest).
  assert (∃ body, encode_basestring_ascii key ++ tail = 34 :: body)
    as [body Hbody].
  { unfold encode_basestring_ascii. rewrite <- !app_assoc. by eexists. }
  rewrite Hbody at 1. change (34 =? 125) with false. cbv iota.
  rewrite <- Hbody.
  apply (JSONObject_loop_items rec f l ps rest Hl k v key j); [done|].
  subst tail. rewrite !length_app.
  pose proof (iterencode_items_length rec f l ps Hl). lia.
Qed.

(** ** Reading back what the encoder wrote: every value *)

Lemma scan_once_brackets `{Interpreter} (depth : nat) (body : pystr) :
  scan_once (S depth) (91 :: body) = JSONArray (scan_once depth) body
  ∧ scan_once (S depth) (123 :: body) = JSONObject (scan_once depth) body.
Proof. done. Qed.

Lemma reads_back_list `{Interpreter} (depth depth' : nat) (o : pyval)
    (lst js : list pyval) :
  iterencode (S depth) o = iterencode_list (iterencode depth) lst →
  Forall2 (reads_back (iterencode depth) (scan_once depth')) lst js →
  reads_back (iterencode (S depth)) (scan_once (S depth')) o (PList js).
Proof.
  intros Ho Hlst. unfold reads_back. rewrite Ho.
  destruct (JSONArray_encoded _ _ _ _ [] Hlst) as (Hok & body & Hbody & _).
  rewrite app_nil_r in Hbody.
  split; [done|]. split; [rewrite Hbody; by eexists _, _|].
  intros rest Hrest.
  destruct (JSONArray_encoded _ _ _ _ rest Hlst) as (_ & b & -> & Hscan).
  by rewrite (proj1 (scan_once_brackets depth' b)).
Qed.

Lemma reads_back_dict `{Interpreter} (depth depth' : nat)
    (items : list (pyval * pyval)) (pairs : list (pystr * pyval)) :
  Forall2 (item_reads_back (iterencode depth) (scan_once depth'))
    items pairs →
  reads_back (iterencode (S depth)) (scan_once (S depth'))
    (PDict items) (PDict (dict_of_pairs pairs)).
Proof.
  intros Hitems. unfold reads_back. cbn [iterencode].
  destruct (JSONObject_encoded _ _ _ _ [] Hitems)
    as (Hok & body & Hbody & _).
  rewrite app_nil_r in Hbody.
  split; [done|]. split; [rewrite Hbody; by eexists _, _|].
  intros rest Hrest.
  destruct (JSONObject_encoded _ _ _ _ rest Hitems) as (_ & b & -> & Hscan).
  by rewrite (proj2 (scan_once_brackets depth' b)).
Qed.

Lemma iterencode_reads_back `{Interpreter} (depth : nat) :
  ∀ o j,
    loads_as depth o = Some j →
    text_faithful depth o = true →
    ∀ depth', (depth ≤ depth')%nat →
      reads_back (iterencode depth) (scan_once depth') o j.
Proof.
  induction depth as [|depth IH]; intros o j Hj Hfaithful depth' Hdepth;
    [done|].
  destruct depth' as [|depth']; [lia|].
  assert (depth ≤ depth')%nat as Hle by lia.
  assert (∀ lst js,
            mapM (loads_as depth) lst = Some js →
            forallb (text_faithful depth) lst = true →
            Forall2 (reads_back (iterencode depth) (scan_once depth'))
              lst js) as Hvalues.
  { intros lst js Hjs%mapM_Some Hlst.
    induction Hjs as [|v j' l js' Hv _ IHl]; [constructor|].
    simpl in Hlst. apply andb_prop in Hlst as [Hfv Hfl].
    constructor; [by apply IH|by apply IHl]. }
  destruct o as [|b|n|f|s|lst|lst|dct|cls tl cx dt td];
    cbn [loads_as text_faithful] in Hj, Hfaithful.
  - injection Hj as <-. split; [done|]. split; [by eexists _, _|done].
  - injection Hj as <-. destruct b;
      (split; [done|]; split; [by eexists _, _|done]).
  - injection Hj as <-. split; [done|]. cbn [iterencode yield fst].
    split; [by apply (scan_once_int depth' n [])|].
    intros rest Hrest. by apply scan_once_int.
  - injection Hj as <-. split; [done|]. cbn [iterencode yield fst].
    split; [by apply (scan_once_float depth' f [])|].
    intros rest Hrest. by apply scan_once_float.
  - injection Hj as <-. split; [done|]. cbn [iterencode yield fst].
    split; [by apply (scan_once_str depth' s [])|].
    intros rest Hrest. by apply scan_once_str.
  - apply fmap_Some in Hj as (js & Hjs & ->).
    apply (reads_back_list depth depth' _ lst); [done|by apply Hvalues].
  - apply fmap_Some in Hj as (js & Hjs & ->).
    apply (reads_back_list depth depth' _ lst); [done|by apply Hvalues].
  - apply fmap_Some in Hj as (pairs & Hpairs & ->).
    apply reads_back_dict. apply mapM_Some in Hpairs.
    induction Hpairs as [|[k v] [key j'] l ps Hkv _ IHl]; [constructor|].
    simpl in Hfaithful. apply andb_prop in Hfaithful as [Hfkv Hfl].
    apply andb_prop in Hfkv as [Hfk Hfv].
    constructor; [|by apply IHl].
    simpl in Hkv. unfold key_faithful in Hfk. simpl in Hfk.
    destruct (key_text k) as [e|key0] eqn:Hk; [done|].
    apply fmap_Some in Hkv as (j0 & Hj0 & [= <- <-]).
    split; [done|]. split; [done|]. by apply IH.
  - destruct (default (PObj cls tl cx dt td)) as [e|o'] eqn:Hdefault;
      [done|].
    pose proof (IH o' j Hj Hfaithful (S depth') ltac:(lia)) as Hread.
    unfold reads_back in *. cbn [iterencode]. by rewrite Hdefault.
Qed.

Lemma json_loads_iterencode `{Interpreter} (o j : pyval) :
  loads_as recursion_limit o = Some j →
  text_faithful recursion_limit o = true →
  (iterencode recursion_limit o).2 = None
  ∧ json_loads (iterencode recursion_limit o).1 = ok j.
Proof.
  intros Hj Hfaithful.
  destruct (iterencode_reads_back recursion_limit o j Hj Hfaithful
              recursion_limit (le_n _)) as (Hok & Hstart & Hread).
  split; [done|]. unfold json_loads.
  pose proof (skip_ws_value _ [] Hstart) as Hskip.
  rewrite app_nil_r in Hskip. rewrite Hskip.
  specialize (Hread [] eq_refl). rewrite app_nil_r in Hread.
  rewrite Hread.
  destruct Hstart as (c & t & -> & Hc).
  rewrite strip_prefix_head; [done|].
  intros <-. by vm_compute in Hc.
Qed.

Lemma iterencode_values_ok_inv (rec : pyval → emitted) (first : bool)
    (lst : list pyval) :
  (iterencode_values rec first lst).2 = None →
  Forall (λ v, (rec v).2 = None) lst.
Proof.
  intros Hok. apply Forall_forall. intros v Hin.
  destruct (rec v).2 as [e|] eqn:Hv; [|done].
  destruct (iterencode_values_fails rec first lst v Hin); [|done].
  by rewrite Hv.
Qed.

Lemma iterencode_items_ok_inv `{Interpreter} (rec : pyval → emitted)
    (first : bool) (items : list (pyval * pyval)) :
  (iterencode_items rec first items).2 = None →
  Forall (λ kv, (∃ key, key_text kv.1 = inr key) ∧ (rec kv.2).2 = None)
    items.
Proof.
  revert first. induction items as [|[k v] l IH]; intros first;
    [constructor|].
  cbn [iterencode_items]. destruct (key_text k) as [e|key] eqn:Hk; [done|].
  rewrite !andthen_stopped. simpl.
  destruct (rec v).2 eqn:Hv; [done|]. intros Hl%IH.
  constructor; [|done]. split; [by exists key|done].
Qed.

Lemma iterencode_ok_loads_as `{Interpreter} (depth : nat) (o : pyval) :
  (iterencode depth o).2 = None → is_Some (loads_as depth o).
Proof.
  revert o. induction depth as [|depth IH]; intros o; [done|].
  destruct o as [|b|n|f|s|lst|lst|dct|cls tl cx dt td];
    cbn [iterencode loads_as]; try done.
  - rewrite iterencode_list_stopped_eq. intros Hok%iterencode_values_ok_inv.
    apply fmap_is_Some, mapM_is_Some.
    eapply Forall_impl; [exact Hok|]. intros v. apply IH.
  - rewrite iterencode_list_stopped_eq. intros Hok%iterencode_values_ok_inv.
    apply fmap_is_Some, mapM_is_Some.
    eapply Forall_impl; [exact Hok|]. intros v. apply IH.
  - rewrite iterencode_dict_stopped_eq. intros Hok%iterencode_items_ok_inv.
    apply fmap_is_Some, mapM_is_Some.
    eapply Forall_impl; [exact Hok|]. intros [k v] [[key Hk] Hv].
    simpl in *. rewrite Hk. by apply fmap_is_Some, IH.
  - destruct (default _) as [e|o']; [done|]. apply IH.
Qed.

(** ** Saving, then loading *)

Lemma save_then_json_load `{Interpreter} (obj j : pyval)
    (filename : string) (fs : filesystem) :
  filename ∉ denied fs →
  loads_as recursion_limit obj = Some j →
  text_faithful recursion_limit obj = true →
  (save_to_json obj filename fs).2 = ok tt
  ∧ json_load filename (save_to_json obj filename fs).1 = ok j.
Proof.
  intros Hfree Hj Hfaithful.
  destruct (json_loads_iterencode obj j Hj Hfaithful) as [Hok Hloads].
  destruct (save_to_json_written obj filename fs Hfree) as [Hw Hr].
  rewrite Hok in Hr. split; [done|].
  rewrite (json_load_text _ _ _ ltac:(by rewrite save_to_json_denied) Hw).
  exact Hloads.
Qed.



Lemma dict_set_fresh (k : pystr) (v : pyval) (ps : list (pystr * pyval)) :
  k ∉ ps.*1 →
  dict_set k v ((λ p, (PStr p.1, p.2)) <$> ps)
  = (λ p, (PStr p.1, p.2)) <$> (ps ++ [(k, v)]).
Proof.
  induction ps as [|[k' v'] ps IH]; [done|].
  rewrite !fmap_cons. intros [Hne Hps]%not_elem_of_cons.
  cbn [dict_set fst snd app]. rewrite fmap_cons.
  destruct (decide (k = k')); [done|]. by rewrite IH.
Qed.

Lemma dict_of_pairs_distinct (ps : list (pystr * pyval)) :
  NoDup ps.*1 → dict_of_pairs ps = (λ p, (PStr p.1, p.2)) <$> ps.
Proof.
  unfold dict_of_pairs.
  assert (∀ acc, NoDup (acc ++ ps).*1 →
            foldl (λ d kv, dict_set kv.1 kv.2 d)
              ((λ p, (PStr p.1, p.2)) <$> acc) ps
            = (λ p, (PStr p.1, p.2)) <$> (acc ++ ps)) as Hfold.
  { induction ps as [|[k v] ps IH]; intros acc Hnodup.
    - by rewrite app_nil_r.
    - simpl. rewrite dict_set_fresh.
      + rewrite IH; rewrite <- app_assoc; done.
      + rewrite fmap_app in Hnodup. apply NoDup_app in Hnodup
          as (_ & Hdisjoint & _).
        intros Hin. apply (Hdisjoint k Hin). left. }
  apply (Hfold []).
Qed.

Lemma loads_as_native `{Interpreter} (depth : nat) (o : pyval) :
  json_native depth o = true → loads_as depth o = Some o.
Proof.
  revert o. induction depth as [|depth IH]; intros o; [done|].
  destruct o as [|b|n|f|s|lst|lst|dct|cls tl cx dt td];
    cbn [json_native loads_as]; try done.
  - intros Hlst. apply fmap_Some. exists lst. split; [|done].
    apply mapM_Some, Forall_Forall2_diag, Forall_forall.
    intros v Hv. apply IH.
    by apply (proj1 (forallb_forall _ _) Hlst), list_elem_of_In.
  - intros [Hdct Hkeys%bool_decide_eq_true]%andb_prop.
    apply fmap_Some.
    assert (∃ ps, dct = (λ p, (PStr p.1, p.2)) <$> ps
                  ∧ mapM (λ kv, match key_text kv.1 with
                                | inr k => (λ j, (k, j)) <$> loads_as depth kv.2
                                | inl _ => None
                                end) dct = Some ps) as (ps & -> & Hps).
    { clear Hkeys. induction dct as [|[k v] dct IHd]; [by exists []|].
      simpl in Hdct. apply andb_prop in Hdct as [Hkv Hd].
      destruct (IHd Hd) as (ps & -> & Hps).
      destruct k as [| | | |key| | | |]; try done.
      exists ((key, v) :: ps). split; [done|].
      apply mapM_Some. constructor; [|by apply mapM_Some].
      simpl. by rewrite IH. }
    exists ps. split; [done|]. f_equal. rewrite dict_of_pairs_distinct;
      [done|].
    rewrite <- list_fmap_compose in Hkeys.
    replace ps.*1 with (str_key ∘ (λ p, (PStr p.1, p.2)) <$> ps); [done|].
    clear. induction ps as [|[k v] ps IHps]; [done|].
    rewrite !fmap_cons. by f_equal.
Qed.

(** A value made of JSON types only comes back unchanged: when it
    consists of [None], booleans, integers, round-tripping floats,
    strings of scalar values, lists, and dictionaries with distinct
    string keys, nested within the recursion limit, [save_to_json]
    returns and [load_properties] and [load_result] then hand the
    factory the very value that was saved. *)
Theorem save_then_load_native `{Interpreter} `{Qiskit} (obj : pyval)
    (filename : string) (fs : filesystem) :
  filename ∉ denied fs →
  json_native recursion_limit obj = true →
  text_faithful recursion_limit obj = true →
  (save_to_json obj filename fs).2 = ok tt
  ∧ json_load filename (save_to_json obj filename fs).1 = ok obj
  ∧ load_properties filename (save_to_json obj filename fs).1
    = BackendProperties_from_dict obj
  ∧ load_result filename (save_to_json obj filename fs).1
    = match obj with
      | PList items =>
          let* rs := comprehension Result_from_dict items in ok (Many rs)
      | _ => let* r := Result_from_dict obj in ok (Single r)
      end.
Proof.
  intros Hfree Hnative%loads_as_native Hfaithful.
  destruct (save_then_json_load obj obj filename fs Hfree Hnative Hfaithful)
    as [Hsaved Hload].
  split; [done|]. split; [done|].
  unfold load_properties, load_result. by rewrite Hload.
Qed.

Lemma save_then_load_native_witness :
  (@save_to_json example_interpreter example_data "a.json" (mk_fs ∅ ∅)).2
  = ok tt
  ∧ @load_properties example_interpreter example_qiskit "a.json"
      (@save_to_json example_interpreter example_data "a.json"
         (mk_fs ∅ ∅)).1
    = from_mapping example_data.
Proof.
  destruct (@save_then_load_native example_interpreter example_qiskit
              example_data "a.json" (mk_fs ∅ ∅) (not_elem_of_empty _)
              eq_refl eq_refl) as (Hsaved & _ & Hprops & _).
  split; [exact Hsaved | exact Hprops].
Defined.

(** C4, as the specification states it, fails on a domain object whose
    mapping has an integer key: the load routine matches, since the
    factory rebuilds the object from that mapping, and the save returns,
    but what is loaded is built from the mapping with the key as a
    string. *)
Lemma C4_counterexample :
  @Result_from_dict example_qiskit counts_by_outcome
  = ok [(PInt 1, PInt 1024)]
  ∧ (@save_to_json example_interpreter
       (mapping_capable (lit "Result") counts_by_outcome) "r.json"
       (mk_fs ∅ ∅)).2 = ok tt
  ∧ @load_result example_interpreter example_qiskit "r.json"
      (@save_to_json example_interpreter
         (mapping_capable (lit "Result") counts_by_outcome) "r.json"
         (mk_fs ∅ ∅)).1
    = ok (@Single example_qiskit [(PStr (lit "1"), PInt 1024)])
  ∧ ¬ @reconstructs example_interpreter example_qiskit (lit "Result")
        counts_by_outcome [(PInt 1, PInt 1024)] "r.json" (mk_fs ∅ ∅).
Proof.
  split; [reflexivity|]. split; [reflexivity|].
  assert (@load_result example_interpreter example_qiskit "r.json"
            (@save_to_json example_interpreter
               (mapping_capable (lit "Result") counts_by_outcome) "r.json"
               (mk_fs ∅ ∅)).1
          = ok (@Single example_qiskit [(PStr (lit "1"), PInt 1024)]))
    as Hloaded by reflexivity.
  split; [exact Hloaded|].
  intros Hround. specialize (Hround eq_refl).
  rewrite Hloaded in Hround. discriminate.
Qed.

(** C4, amended. A domain object that is saved through [to_dict] comes
    back when its mapping is a dictionary made of JSON types only
    ([None], booleans, integers, round-tripping floats, strings of
    scalar values, lists, dictionaries with distinct string keys) and
    the load routine matches, that is [from_dict] rebuilds the object
    from that mapping: then [save_to_json] returns, [load_result] returns
    the object and [load_properties] returns it. *)
Theorem C4_round_trip `{Interpreter} `{Qiskit} (cls : pystr)
    (items : list (pyval * pyval)) (filename : string) (fs : filesystem) :
  filename ∉ denied fs →
  json_native (Nat.pred recursion_limit) (PDict items) = true →
  text_faithful (Nat.pred recursion_limit) (PDict items) = true →
  (save_to_json (mapping_capable cls (PDict items)) filename fs).2 = ok tt
  ∧ (∀ r, Result_from_dict (PDict items) = ok r →
       load_result filename
         (save_to_json (mapping_capable cls (PDict items)) filename fs).1
       = ok (Single r))
  ∧ (∀ p, BackendProperties_from_dict (PDict items) = ok p →
       load_properties filename
         (save_to_json (mapping_capable cls (PDict items)) filename fs).1
       = ok p).
Proof.
  intros Hfree Hnative Hfaithful.
  destruct recursion_limit as [|limit] eqn:Hrl; [done|].
  cbn [Nat.pred] in Hnative, Hfaithful.
  destruct (save_then_json_load (mapping_capable cls (PDict items))
              (PDict items) filename fs Hfree) as [Hsaved Hload].
  - rewrite Hrl. cbn [loads_as mapping_capable default]. simpl.
    by apply loads_as_native.
  - by rewrite Hrl.
  - split; [done|]. split.
    + intros r Hr. unfold load_result. rewrite Hload. simpl.
      by rewrite Hr.
    + intros p Hp. unfold load_properties. rewrite Hload. simpl.
      by rewrite Hp.
Qed.

Lemma C4_witness :
  @load_result example_interpreter example_qiskit "r.json"
    (@save_to_json example_interpreter
       (mapping_capable (lit "Result")
          (PDict [(PStr (lit "shots"), PInt 1024);
                  (PStr (lit "counts"),
                   PDict [(PStr (lit "00"), PInt 500)])])) "r.json"
       (mk_fs ∅ ∅)).1
  = ok (@Single example_qiskit
          [(PStr (lit "shots"), PInt 1024);
           (PStr (lit "counts"), PDict [(PStr (lit "00"), PInt 500)])]).
Proof.
  refine (proj1 (proj2 (@C4_round_trip example_interpreter example_qiskit
                          (lit "Result")
                          [(PStr (lit "shots"), PInt 1024);
                           (PStr (lit "counts"),
                            PDict [(PStr (lit "00"), PInt 500)])]
                          "r.json" (mk_fs ∅ ∅) (not_elem_of_empty _)
                          eq_refl eq_refl)) _ eq_refl).
Defined.

(** ** What the decoder can return *)

Lemma dict_set_keyed (P : pyval → Prop) (k : pystr) (v : pyval)
    (qs : list (pystr * pyval)) :
  NoDup qs.*1 → Forall (λ q, P q.2) qs → P v →
  ∃ qs', dict_set k v ((λ p, (PStr p.1, p.2)) <$> qs)
         = (λ p, (PStr p.1, p.2)) <$> qs'
         ∧ NoDup qs'.*1 ∧ Forall (λ q, P q.2) qs'
         ∧ ∀ x, x ∈ qs'.*1 → x ∈ qs.*1 ∨ x = k.
Proof.
  intros Hnodup Hqs Hv.
  induction qs as [|[k' v'] qs IH].
  - exists [(k, v)]. repeat split; [apply NoDup_singleton|by constructor|].
    intros x ->%list_elem_of_singleton. by right.
  - rewrite fmap_cons in Hnodup. apply NoDup_cons in Hnodup as [Hk' Hnodup].
    apply Forall_cons in Hqs as [Hv' Hqs].
    rewrite fmap_cons. cbn [dict_set fst snd].
    destruct (decide (k = k')) as [->|Hne].
    + exists ((k', v) :: qs). repeat split.
      * by apply NoDup_cons.
      * by constructor.
      * intros x Hx. by left.
    + destruct (IH Hnodup Hqs) as (qs' & -> & Hnodup' & Hqs' & Hkeys).
      exists ((k', v') :: qs'). repeat split.
      * apply NoDup_cons. split; [|done]. simpl. intros Hin.
        destruct (Hkeys k' Hin) as [Hold|Hnew]; [done|by subst].
      * by constructor.
      * simpl. intros x [Hx|Hx]%elem_of_cons; [subst; left; left|].
        destruct (Hkeys x Hx) as [Hold|Hnew]; [left; by right|by right].
Qed.

Lemma dict_of_pairs_keyed (P : pyval → Prop) (ps : list (pystr * pyval)) :
  Forall (λ p, P p.2) ps →
  ∃ qs, dict_of_pairs ps = (λ p, (PStr p.1, p.2)) <$> qs
        ∧ NoDup qs.*1 ∧ Forall (λ q, P q.2) qs.
Proof.
  unfold dict_of_pairs. intros Hps.
  assert (∀ acc, NoDup acc.*1 → Forall (λ q, P q.2) acc →
            ∃ qs, foldl (λ d kv, dict_set kv.1 kv.2 d)
                    ((λ p, (PStr p.1, p.2)) <$> acc) ps
                  = (λ p, (PStr p.1, p.2)) <$> qs
                  ∧ NoDup qs.*1 ∧ Forall (λ q, P q.2) qs) as Hfold.
  { induction Hps as [|[k v] ps Hv _ IH]; intros acc Hnodup Hacc.
    - by exists acc.
    - simpl.
      destruct (dict_set_keyed P k v acc Hnodup Hacc Hv)
        as (acc' & -> & Hnodup' & Hacc' & _).
      by apply IH. }
  apply (Hfold []); [apply NoDup_nil_2|constructor].
Qed.

Lemma json_native_dict (depth : nat) (ps : list (pystr * pyval)) :
  Forall (λ p, json_native depth p.2 = true) ps →
  json_native (S depth) (PDict (dict_of_pairs ps)) = true.
Proof.
  intros Hps.
  destruct (dict_of_pairs_keyed (λ v, json_native depth v = true) ps Hps)
    as (qs & -> & Hnodup & Hqs).
  cbn [json_native]. apply andb_true_intro. split.
  - apply forallb_forall. intros kv Hin%list_elem_of_In.
    apply list_elem_of_fmap in Hin as (q & -> & Hq).
    by apply (proj1 (Forall_forall _ _) Hqs).
  - apply bool_decide_eq_true.
    replace (str_key <$> ((λ p, (PStr p.1, p.2)) <$> qs)) with qs.*1;
      [done|].
    clear. induction qs as [|[k v] qs IH]; [done|].
    rewrite !fmap_cons. by f_equal.
Qed.

Lemma json_native_list (depth : nat) (acc : list pyval) :
  Forall (λ v, json_native depth v = true) acc →
  json_native (S depth) (PList (reverse acc)) = true.
Proof.
  intros Hacc. cbn [json_native]. apply forallb_forall.
  intros v Hin. apply (proj1 (Forall_forall _ _) Hacc).
  by apply elem_of_reverse, list_elem_of_In.
Qed.

Lemma JSONArray_loop_returns (depth : nat) (f : pystr → scan pyval)
    (fuel : nat) (s : pystr) (acc : list pyval) :
  (∀ s, returns (λ v, json_native depth v = true) (f s)) →
  Forall (λ v, json_native depth v = true) acc →
  returns (λ v, json_native (S depth) v = true)
    (JSONArray_loop f fuel s acc).
Proof.
  intros Hf. revert s acc.
  induction fuel as [|fuel IH]; intros s acc Hacc; [exact I|].
  cbn [JSONArray_loop]. pose proof (Hf s) as Hvalue.
  destruct (f s) as [value s1| | |]; try exact I.
  destruct (skip_ws s1) as [|c s2]; [exact I|].
  destruct (c =? 93).
  { apply json_native_list. by constructor. }
  destruct (c =? 44); [|exact I]. apply IH. by constructor.
Qed.

Lemma JSONObject_loop_returns (depth : nat) (f : pystr → scan pyval)
    (fuel : nat) (s : pystr) (acc : list (pystr * pyval)) :
  (∀ s, returns (λ v, json_native depth v = true) (f s)) →
  Forall (λ p, json_native depth p.2 = true) acc →
  returns (λ v, json_native (S depth) v = true)
    (JSONObject_loop f fuel s acc).
Proof.
  intros Hf. revert s acc.
  induction fuel as [|fuel IH]; intros s acc Hacc; [exact I|].
  cbn [JSONObject_loop]. destruct s as [|c s0]; [exact I|].
  only_code c.
  destruct (scanstring s0) as [key s1| | |]; try exact I.
  destruct (skip_ws s1) as [|c s2]; [exact I|].
  only_code c.
  pose proof (Hf (skip_ws s2)) as Hvalue.
  destruct (f (skip_ws s2)) as [value s3| | |]; try exact I.
  destruct (skip_ws s3) as [|c s4]; [exact I|].
  destruct (c =? 125).
  { apply json_native_dict, Forall_reverse. by constructor. }
  destruct (c =? 44); [|exact I]. apply IH. by constructor.
Qed.

Lemma scan_once_returns `{Interpreter} (depth : nat) (s : pystr) :
  returns (λ v, json_native depth v = true) (scan_once depth s).
Proof.
  revert s. induction depth as [|depth IH]; intros s; [exact I|].
  cbn [scan_once]. destruct s as [|nextchar s']; [exact I|].
  destruct (nextchar =? 34).
  { by destruct (scanstring s'). }
  destruct (nextchar =? 123).
  { unfold JSONObject. destruct (skip_ws s') as [|c s1].
    - by apply JSONObject_loop_returns.
    - destruct (c =? 125); [done|]. by apply JSONObject_loop_returns. }
  destruct (nextchar =? 91).
  { unfold JSONArray. destruct (skip_ws s') as [|c s1].
    - by apply JSONArray_loop_returns.
    - destruct (c =? 93); [done|]. by apply JSONArray_loop_returns. }
  generalize dependent (nextchar :: s'). intros s.
  destruct (strip_prefix (lit "null") s); [done|].
  destruct (strip_prefix (lit "true") s); [done|].
  destruct (strip_prefix (lit "false") s); [done|].
  destruct (match_number s) as [[[[integer frac] exp] r]|].
  - by destruct frac, exp.
  - destruct (strip_prefix (lit "NaN") s); [done|].
    destruct (strip_prefix (lit "Infinity") s); [done|].
    by destruct (strip_prefix (lit "-Infinity") s).
Qed.

(** Whatever the file holds, a value [json.load] returns from it is made
    of JSON types only: [None], booleans, integers, floats, strings,
    lists, and dictionaries whose keys are distinct strings. So
    [load_properties] and [load_result] never hand a tuple, a complex
    number, a timestamp or any other object to [from_dict]. *)
Theorem loaded_value_native `{Interpreter} (filename : string)
    (fs : filesystem) (v : pyval) :
  json_load filename fs = ok v →
  json_native recursion_limit v = true.
Proof.
  unfold json_load, json_loads.
  destruct (open_r filename fs) as [e|text]; [done|]. cbn [bind].
  destruct (strip_prefix [65279] text); [done|].
  pose proof (scan_once_returns recursion_limit (skip_ws text)) as Hvalue.
  destruct (scan_once recursion_limit (skip_ws text)) as [obj r| | |];
    try done.
  destruct (skip_ws r); [|done]. by intros [= <-].
Qed.

Lemma loaded_value_native_witness :
  @json_load example_interpreter "r.json"
    (one_file "r.json" two_results_text)
  = ok (PList [PDict [(PStr (lit "a"), PInt 1)]; PDict []])
  ∧ json_native 1000
      (PList [PDict [(PStr (lit "a"), PInt 1)]; PDict []]) = true.
Proof.
  split; [reflexivity|].
  apply (@loaded_value_native example_interpreter "r.json"
           (one_file "r.json" two_results_text)).
  reflexivity.
Defined.

(** ** A saved timestamp *)

Lemma scalar_uint_chars (u : Decimal.uint) :
  forallb scalar (uint_chars u) = true.
Proof. induction u; simpl; auto. Qed.

Lemma scalar_zfill (w : nat) (n : N) : forallb scalar (zfill w n) = true.
Proof.
  unfold zfill, N_repr. rewrite forallb_app, scalar_uint_chars, andb_true_r.
  induction (w - length (uint_chars (N.to_uint n)))%nat as [|k IH];
    [done|]. by simpl.
Qed.

Lemma scalar_iso_text (d : datetime) (off : option Z) :
  forallb scalar
    (zfill 4 (year d) ++ lit "-" ++ zfill 2 (month d) ++ lit "-"
     ++ zfill 2 (day d) ++ lit "T"
     ++ format_time (hour d) (minute d) (second d) (microsecond d)
     ++ format_offset off) = true.
Proof.
  unfold format_time, format_offset.
  repeat case_match;
    rewrite ?forallb_app, ?scalar_zfill; reflexivity.
Qed.

Lemma scalar_isoformat (d : datetime) (text : pystr) :
  isoformat d = ok text → forallb scalar text = true.
Proof.
  unfold isoformat. destruct (utcoffset d) as [e|off]; [done|].
  intros Htext. injection Htext as <-. apply scalar_iso_text.
Qed.

(** A timestamp does not come back as a timestamp. For every builtin
    [datetime] whose [isoformat()] returns (with a recursion limit of
    at least two), [save_to_json] returns, and what [json.load] then
    reads from the file is the string [isoformat()] gave, which the
    loaders pass to [from_dict] as it is. When [isoformat()] raises,
    because the [tzinfo] of the timestamp raises in [utcoffset],
    [save_to_json] raises that exception and leaves the file empty. *)
Theorem save_then_load_datetime `{Interpreter} `{Qiskit} (d : datetime)
    (filename : string) (fs : filesystem) :
  filename ∉ denied fs →
  (2 ≤ recursion_limit)%nat →
  match isoformat d with
  | inr text =>
      (save_to_json (PDatetime d) filename fs).2 = ok tt
      ∧ json_load filename (save_to_json (PDatetime d) filename fs).1
        = ok (PStr text)
      ∧ load_properties filename (save_to_json (PDatetime d) filename fs).1
        = BackendProperties_from_dict (PStr text)
      ∧ load_result filename (save_to_json (PDatetime d) filename fs).1
        = (let* r := Result_from_dict (PStr text) in ok (Single r))
  | inl e =>
      (save_to_json (PDatetime d) filename fs).2 = raise e
      ∧ files (save_to_json (PDatetime d) filename fs).1 !! filename
        = Some ([] : pystr)
  end.
Proof.
  intros Hfree Hlimit.
  destruct (isoformat d) as [e|text] eqn:Hiso.
  - destruct (save_to_json_written (PDatetime d) filename fs Hfree)
      as [Hw Hr].
    rewrite Hw, Hr.
    destruct recursion_limit as [|limit]; [lia|].
    unfold PDatetime, datetime_isoformat. cbn [iterencode].
    rewrite Hiso. by cbn.
  - destruct recursion_limit as [|[|limit]] eqn:Hrl; [lia|lia|].
    destruct (save_then_json_load (PDatetime d) (PStr text)
                filename fs Hfree) as [Hsaved Hload].
    + rewrite Hrl. unfold PDatetime, datetime_isoformat. cbn.
      by rewrite Hiso.
    + rewrite Hrl. unfold PDatetime, datetime_isoformat. cbn.
      rewrite Hiso. by apply (scalar_isoformat d).
    + split; [done|]. split; [done|].
      unfold load_properties, load_result. by rewrite Hload.
Qed.

Lemma save_then_load_datetime_witness :
  @json_load example_interpreter "t.json"
    (@save_to_json example_interpreter (PDatetime new_year_2024) "t.json"
       (mk_fs ∅ ∅)).1
  = ok (PStr (lit "2024-01-01T00:00:00"))
  ∧ (@save_to_json example_interpreter
       (PDatetime new_year_2024_abstract_tz) "t.json" (mk_fs ∅ ∅)).2
    = raise (Raised (lit "NotImplementedError")).
Proof.
  split.
  - refine (proj1 (proj2 (@save_then_load_datetime example_interpreter
                            example_qiskit new_year_2024 "t.json"
                            (mk_fs ∅ ∅) (not_elem_of_empty _) _))).
    simpl. lia.
  - refine (proj1 (@save_then_load_datetime example_interpreter
                     example_qiskit new_year_2024_abstract_tz "t.json"
                     (mk_fs ∅ ∅) (not_elem_of_empty _) _)).
    simpl. lia.
Defined.

(** ** The characters of a saved file *)

Lemma printable_uint_chars (u : Decimal.uint) :
  forallb printable (uint_chars u) = true.
Proof. induction u; simpl; auto. Qed.

Lemma printable_int_repr (z : Z) : forallb printable (int_repr z) = true.
Proof.
  unfold int_repr. destruct (Z.to_int z); simpl;
    by rewrite printable_uint_chars.
Qed.

Lemma printable_number (s : pystr) :
  forallb number_char s = true → forallb printable s = true.
Proof.
  induction s as [|c s IH]; [done|]. simpl.
  intros [Hc Hs]%andb_prop. rewrite IH, andb_true_r by done.
  unfold number_char, is_digit in Hc. unfold printable.
  apply andb_true_intro. nbool; subst; split; try done;
    apply N.leb_le; lia.
Qed.

Lemma printable_floatstr `{Interpreter} (f : spec_float) :
  float_repr_numeric → forallb printable (floatstr f) = true.
Proof.
  intros Hnum. destruct f as [s|[]| |s m e]; simpl;
    try (by apply printable_number, Hnum); reflexivity.
Qed.

Lemma printable_hex_digit (n : N) : printable (hex_digit (n mod 16)) = true.
Proof.
  pose proof (N.mod_lt n 16 ltac:(done)) as Hlt.
  generalize dependent (n mod 16). intros d Hlt.
  unfold printable, hex_digit. apply andb_true_intro.
  case_match; nbool; split; apply N.leb_le; lia.
Qed.

Lemma printable_u_escape (n : N) : forallb printable (u_escape n) = true.
Proof. unfold u_escape. simpl. by rewrite !printable_hex_digit. Qed.

Lemma printable_replace (c : N) : forallb printable (replace c) = true.
Proof.
  unfold replace. destruct (ESCAPE_DCT c) as [r|] eqn:Hr.
  - revert Hr. unfold ESCAPE_DCT. repeat case_match; by intros [= <-].
  - case_match; [apply printable_u_escape|].
    by rewrite forallb_app, !printable_u_escape.
Qed.

Lemma printable_encode_basestring (s : pystr) :
  forallb printable (encode_basestring_ascii s) = true.
Proof.
  unfold encode_basestring_ascii. rewrite !forallb_app. simpl.
  rewrite andb_true_r. induction s as [|c s IH]; [done|].
  rewrite fmap_cons. cbn [concat]. rewrite forallb_app, IH, andb_true_r.
  destruct (ESCAPE_ASCII c) eqn:Hc; [apply printable_replace|].
  unfold ESCAPE_ASCII in Hc. simpl. rewrite andb_true_r.
  unfold printable. nbool. apply andb_true_intro.
  split; apply N.leb_le; lia.
Qed.

Lemma printable_andthen (a b : emitted) :
  forallb printable a.1 = true → forallb printable b.1 = true →
  forallb printable (a >> b).1 = true.
Proof.
  destruct a as [s [e|]]; simpl; [done|]. intros Ha Hb.
  by rewrite forallb_app, Ha, Hb.
Qed.

Lemma printable_values (rec : pyval → emitted) (first : bool)
    (lst : list pyval) :
  (∀ v, forallb printable (rec v).1 = true) →
  forallb printable (iterencode_values rec first lst).1 = true.
Proof.
  intros Hrec. revert first.
  induction lst as [|v lst IH]; intros first; [done|].
  cbn [iterencode_values]. repeat apply printable_andthen; try done.
  by destruct first.
Qed.

Lemma printable_items `{Interpreter} (rec : pyval → emitted) (first : bool)
    (items : list (pyval * pyval)) :
  (∀ v, forallb printable (rec v).1 = true) →
  forallb printable (iterencode_items rec first items).1 = true.
Proof.
  intros Hrec. revert first.
  induction items as [|[k v] items IH]; intros first; [done|].
  cbn [iterencode_items]. destruct (key_text k); [done|].
  repeat apply printable_andthen; try done.
  - by destruct first.
  - apply printable_encode_basestring.
Qed.

Lemma printable_iterencode `{Interpreter} (depth : nat) (o : pyval) :
  float_repr_numeric →
  forallb printable (iterencode depth o).1 = true.
Proof.
  intros Hnum. revert o. induction depth as [|depth IH]; intros o; [done|].
  destruct o as [|[]|n|f|s|lst|lst|dct|cls tl cx dt td]; cbn [iterencode];
    try reflexivity.
  - apply printable_int_repr.
  - by apply printable_floatstr.
  - apply printable_encode_basestring.
  - destruct lst; [done|]. unfold iterencode_list.
    apply printable_andthen; [by apply printable_values|done].
  - destruct lst; [done|]. unfold iterencode_list.
    apply printable_andthen; [by apply printable_values|done].
  - destruct dct; [done|]. unfold iterencode_dict.
    repeat apply printable_andthen; try done. by apply printable_items.
  - destruct (default _); [done|apply IH].
Qed.

(** The file [save_to_json] leaves, whether it returned or raised, is
    one line of printable ASCII: every character lies between the space
    and the tilde, whatever strings the value holds. *)
Theorem save_to_json_printable `{Interpreter} (obj : pyval)
    (filename : string) (fs : filesystem) :
  filename ∉ denied fs →
  float_repr_numeric →
  ∃ w, files (save_to_json obj filename fs).1 !! filename = Some w
       ∧ forallb printable w = true.
Proof.
  intros Hfree Hnum.
  destruct (save_to_json_written obj filename fs Hfree) as [Hw _].
  eexists. split; [exact Hw|]. by apply printable_iterencode.
Qed.

Lemma save_to_json_printable_witness :
  ∃ w, files (@save_to_json example_interpreter example_data "a.json"
                (mk_fs ∅ ∅)).1 !! "a.json" = Some w
       ∧ forallb printable w = true.
Proof.
  apply (@save_to_json_printable example_interpreter example_data "a.json"
           (mk_fs ∅ ∅)).
  - apply not_elem_of_empty.
  - exact example_float_repr_numeric.
Defined.

(** ** A saved complex number *)

(** A complex number comes back as a list of two floats: when both parts
    round-trip (and the recursion limit is at least three),
    [save_to_json] returns, [json.load] reads the list of the real and
    the imaginary part, and [load_result] therefore takes the list
    branch and calls [Result.from_dict] on each of the two floats. *)
Theorem save_then_load_complex `{Interpreter} `{Qiskit}
    (re im : spec_float) (filename : string) (fs : filesystem) :
  filename ∉ denied fs →
  (3 ≤ recursion_limit)%nat →
  float_round_trips re = true →
  float_round_trips im = true →
  (save_to_json (PComplex re im) filename fs).2 = ok tt
  ∧ json_load filename (save_to_json (PComplex re im) filename fs).1
    = ok (PList [PFloat re; PFloat im])
  ∧ load_result filename (save_to_json (PComplex re im) filename fs).1
    = (let* rs := comprehension Result_from_dict [PFloat re; PFloat im] in
       ok (Many rs)).
Proof.
  intros Hfree Hlimit Hre Him.
  destruct recursion_limit as [|[|[|limit]]] eqn:Hrl; [lia|lia|lia|].
  destruct (save_then_json_load (PComplex re im)
              (PList [PFloat re; PFloat im]) filename fs Hfree)
    as [Hsaved Hload].
  - by rewrite Hrl.
  - rewrite Hrl. cbn. by rewrite Hre, Him.
  - split; [done|]. split; [done|].
    unfold load_result. by rewrite Hload.
Qed.

Lemma save_then_load_complex_witness :
  @load_result example_interpreter rejecting_qiskit "z.json"
    (@save_to_json example_interpreter three_plus_four_j "z.json"
       (mk_fs ∅ ∅)).1
  = raise (Raised (lit "KeyError")).
Proof.
  refine (proj2 (proj2 (@save_then_load_complex example_interpreter
                          rejecting_qiskit float_3 float_4 "z.json"
                          (mk_fs ∅ ∅) (not_elem_of_empty _) _ _ _))).
  - simpl. lia.
  - reflexivity.
  - reflexivity.
Defined.

(** ** Dictionary keys *)

Lemma key_text_untyped `{Interpreter} (k : pyval) :
  key_typed k = false → key_text k = raise (TypeError_keys (class_name k)).
Proof. by destruct k as [|[]| | | | | | |]. Qed.

Lemma iterencode_items_bad_key `{Interpreter} (rec : pyval → emitted)
    (first : bool) (items : list (pyval * pyval)) (k v : pyval) :
  (k, v) ∈ items → key_typed k = false →
  (iterencode_items rec first items).2 ≠ None.
Proof.
  intros Hin Hk. revert first. remember (k, v) as kv eqn:Hkv.
  induction Hin as [kv items|kv [k' v'] items _ IH]; intros first;
    cbn [iterencode_items].
  - subst kv. by rewrite key_text_untyped.
  - destruct (key_text k'); [done|]. rewrite !andthen_stopped. simpl.
    destruct (rec v').2; [done|]. by apply IH.
Qed.

(** The fallback of the encoder is never applied to a dictionary key: a
    dictionary with a key that is not a string, a number, a boolean or
    [None] cannot be saved, also when one of the four branches would
    apply to the key. When the first key is such a key, the exception
    is the key [TypeError] and the file is left holding the opening
    brace alone. *)
Theorem save_to_json_key_type `{Interpreter} (items : list (pyval * pyval))
    (k v : pyval) (filename : string) (fs : filesystem) :
  filename ∉ denied fs →
  (0 < recursion_limit)%nat →
  (k, v) ∈ items →
  key_typed k = false →
  (∃ e, (save_to_json (PDict items) filename fs).2 = raise e)
  ∧ (∀ rest, items = (k, v) :: rest →
       (save_to_json (PDict items) filename fs).2
       = raise (TypeError_keys (class_name k))
       ∧ files (save_to_json (PDict items) filename fs).1 !! filename
         = Some (lit "{")).
Proof.
  intros Hfree Hlimit Hin Hk.
  destruct (save_to_json_written (PDict items) filename fs Hfree)
    as [Hw Hr].
  rewrite Hw, Hr. destruct recursion_limit as [|limit]; [lia|].
  cbn [iterencode]. split.
  - pose proof (iterencode_items_bad_key (iterencode limit) true items k v
                  Hin Hk) as Hstop.
    rewrite <- iterencode_dict_stopped_eq in Hstop.
    destruct (iterencode_dict _ items).2 as [e|]; [by exists e|done].
  - intros rest ->. unfold iterencode_dict. cbn [iterencode_items].
    by rewrite key_text_untyped.
Qed.

Lemma save_to_json_key_type_witness :
  (@save_to_json example_interpreter
     (PDict [(PDatetime new_year_2024, PInt 1)]) "k.json" (mk_fs ∅ ∅)).2
  = raise (TypeError_keys (lit "datetime"))
  ∧ files (@save_to_json example_interpreter
             (PDict [(PDatetime new_year_2024, PInt 1)]) "k.json"
             (mk_fs ∅ ∅)).1 !! "k.json"
    = Some (lit "{").
Proof.
  refine (proj2 (@save_to_json_key_type example_interpreter
                   [(PDatetime new_year_2024, PInt 1)]
                   (PDatetime new_year_2024) (PInt 1) "k.json" (mk_fs ∅ ∅)
                   (not_elem_of_empty _) _ _ eq_refl) [] eq_refl).
  - simpl. lia.
  - left.
Defined.
